(** * Batch inference shim ([predict.py]): a shallow embedding and its properties

    The development follows the source file function by function:
    - [load_pickle_or_joblib]   (artifact loader),
    - [prepare_input_dataframe] (input aligner),
    - [apply_preprocessor]      (preprocessing adapter),
    - [predict_with_model]      (inference adapter),
    - [run_predictions]         (pipeline and result assembler).

    Python objects that the code mutates in place (data frames) live in an
    explicit object store and are handled through references; third-party
    calls ([joblib.load], [transform], [predict], ...) are functions supplied
    by the environment, and each call is recorded in a log.  Floating-point
    numbers are idealised as rationals. *)

From Stdlib Require Import QArith.
From stdpp Require Import base option list strings gmap fin_maps pretty.

(** ** Values, arrays, columns and data frames *)

(** A cell of a table or an element of an array: the missing-value sentinel
    ([np.nan]), a number, a string, or a nested array (what
    [list(proba)] stores per row). *)
#[local] Unset Elimination Schemes.
Inductive value : Type :=
| VNaN
| VNum (q : Q)
| VStr (s : string)
| VArr (shape : list nat) (data : list value).
#[local] Set Elimination Schemes.

(** [pd.isna] on a scalar cell. *)
Definition isna (v : value) : bool :=
  match v with VNaN => true | _ => false end.

Definition is_str (v : value) : bool :=
  match v with VStr _ => true | _ => false end.

(** A numpy array: its shape and its elements in row-major order. *)
Record ndarray : Type := NdArray { shape : list nat; data : list value }.

Definition ndim (a : ndarray) : nat := length (shape a).

Definition size_of (sh : list nat) : nat := foldr Nat.mul 1%nat sh.

(** What [pd.api.types.is_numeric_dtype] distinguishes. *)
Inductive dtype : Type := Numeric | Object.

Record column : Type := Column { dtype_of : dtype; cells : list value }.

Definition is_numeric_dtype (c : column) : bool :=
  match dtype_of c with Numeric => true | Object => false end.

(** A data frame: the row labels and the named columns, in order.  Pandas
    allows repeated column names, so the columns form an association list. *)
Record DataFrame : Type := Frame { index : list Z; cols : list (string * column) }.

Definition columns (df : DataFrame) : list string := (cols df).*1.

Definition nrows (df : DataFrame) : nat := length (index df).

(** [col in df.columns] *)
Definition has_column (col : string) (df : DataFrame) : bool :=
  bool_decide (col ∈ columns df).

(** The dtype pandas infers for a column built from one scalar. *)
Definition scalar_dtype (v : value) : dtype :=
  match v with
  | VNaN | VNum _ => Numeric
  | VStr _ | VArr _ _ => Object
  end.

(** A scalar assigned to a column is repeated along the index. *)
Definition broadcast (v : value) (n : nat) : column :=
  {| dtype_of := scalar_dtype v; cells := replicate n v |}.

(** [df[col] = c]: an existing label is overwritten where it stands, a new
    label is appended as the last column. *)
Definition set_column (col : string) (c : column) (df : DataFrame) : DataFrame :=
  if has_column col df then
    {| index := index df;
       cols := (λ nc : string * column,
                  if String.eqb nc.1 col then (nc.1, c) else nc) <$> cols df |}
  else
    {| index := index df; cols := cols df ++ [(col, c)] |}.

(** [Series.fillna(v)]: every missing cell becomes [v]; a numeric column that
    receives a string is upcast to [object]. *)
Definition fillna (v : value) (c : column) : column :=
  {| dtype_of := if is_numeric_dtype c && is_str v then Object else dtype_of c;
     cells := (λ x, if isna x then v else x) <$> cells c |}.

(** [Series.isna().any()] *)
Definition isna_any (c : column) : bool := existsb isna (cells c).

(** The columns of [df] labelled [col] (more than one if the label repeats). *)
Definition labelled (col : string) (df : DataFrame) : list (string * column) :=
  filter (λ nc : string * column, nc.1 = col) (cols df).

(** ** Exceptions, the world, and the monad of computations *)

(** Exceptions by class, each with the text [str(e)] gives.  An exception
    raised inside third-party code is a [LibraryError]; the other classes are
    raised by this module, by pandas or by the interpreter. *)
Inductive exn : Type :=
| FileNotFoundError (msg : string)
| RuntimeError (msg : string)
| AttributeError (msg : string)
| KeyError (msg : string)
| ValueError (msg : string)
| TypeError (msg : string)
| AxisError (msg : string)
| ReferenceError (msg : string)
| LibraryError (msg : string).

Definition str_exn (e : exn) : string :=
  match e with
  | FileNotFoundError m | RuntimeError m | AttributeError m | KeyError m
  | ValueError m | TypeError m | AxisError m | ReferenceError m
  | LibraryError m => m
  end.

(** The argument of a preprocessor's [transform]: the frame itself or its
    bare value matrix. *)
Inductive transform_arg : Type :=
| TFrame (df : DataFrame)
| TValues (a : ndarray).

(** The argument of a model's [predict] / [predict_proba]: a plain matrix or
    one wrapped in [xgb.DMatrix]. *)
Inductive predict_arg : Type :=
| PRaw (X : ndarray)
| PDMatrix (X : ndarray).

(** Calls that leave this module. *)
Inductive event : Type :=
| EvJoblibLoad (path : string)
| EvPickleLoad (path : string)
| EvNpLoad (path : string)
| EvJsonLoad (path : string)
| EvReadCsv (path : string)
| EvTransform (arg : transform_arg)
| EvPredictProba (arg : predict_arg)
| EvPredict (arg : predict_arg)
| EvToCsv (path : string) (df : DataFrame).

(** The object store holds the data frames that are reachable through
    references; two names bound to one reference are aliases. *)
Abbreviation ref := nat (only parsing).

Record world : Type := World { heap : list DataFrame; log : list event }.

Inductive result (A : Type) : Type :=
| Ok (a : A)
| Raise (e : exn).
Arguments Ok {A} a.
Arguments Raise {A} e.

Definition M (A : Type) : Type := world → result A * world.

Definition ret {A} (a : A) : M A := λ w, (Ok a, w).

Definition raise {A} (e : exn) : M A := λ w, (Raise e, w).

Definition bind {A B} (m : M A) (k : A → M B) : M B :=
  λ w, match m w with
       | (Ok a, w') => k a w'
       | (Raise e, w') => (Raise e, w')
       end.

(** [try: m except Exception as e: h e]; effects of [m] before the exception
    are kept. *)
Definition try_except {A} (m : M A) (h : exn → M A) : M A :=
  λ w, match m w with
       | (Ok a, w') => (Ok a, w')
       | (Raise e, w') => h e w'
       end.

Definition lift {A} (r : result A) : M A := λ w, (r, w).

Notation "'let!' x ':=' m 'in' k" := (bind m (λ x, k))
  (at level 10, x name, m at level 100, k at level 200).

(** [for x in l: body x] *)
Fixpoint for_each {A} (l : list A) (body : A → M unit) : M unit :=
  match l with
  | [] => ret tt
  | x :: l' => let! _ := body x in for_each l' body
  end.

Definition deref (r : ref) : M DataFrame :=
  λ w, match heap w !! r with
       | Some df => (Ok df, w)
       | None => (Raise (ReferenceError "dangling reference"), w)
       end.

(** In-place update of the object behind [r]. *)
Definition assign (r : ref) (df : DataFrame) : M unit :=
  λ w, (Ok tt, {| heap := <[r := df]> (heap w); log := log w |}).

(** A new object. *)
Definition alloc (df : DataFrame) : M ref :=
  λ w, (Ok (length (heap w)), {| heap := heap w ++ [df]; log := log w |}).

(** A third-party call: logged, its failure surfaces as a [LibraryError]. *)
Definition external {A} (ev : event) (r : string + A) : M A :=
  λ w, (match r with inl msg => Raise (LibraryError msg) | inr a => Ok a end,
        {| heap := heap w; log := log w ++ [ev] |}).

(** ** The input aligner *)

(** The truth value of a dict: it is not empty. *)
Definition dict_truthy {V} (d : gmap string V) : bool := negb (Nat.eqb (size d) 0).

(** A default of the metadata file: a JSON number, a JSON string, or the
    literal [NaN], which [json.load] reads as [float("nan")].  (Defaults that
    are [null], booleans, lists or objects are outside this model.) *)
Inductive json_scalar : Type :=
| JNaN
| JNum (q : Q)
| JStr (s : string).

Definition value_of_json (j : json_scalar) : value :=
  match j with
  | JNaN => VNaN
  | JNum q => VNum q
  | JStr s => VStr s
  end.

(** Lines 46-48: [metadata.get("feature_defaults", {}) or
    metadata.get("defaults", {})], guarded by [if metadata]; the defaults
    are handed on as cell values. *)
Definition meta_defaults_of
    (metadata : option (gmap string (gmap string json_scalar)))
  : gmap string value :=
  value_of_json <$>
    match metadata with
    | None => ∅
    | Some md =>
        if dict_truthy md then
          let fd := default ∅ (md !! "feature_defaults") in
          if dict_truthy fd then fd else default ∅ (md !! "defaults")
        else ∅
    end.

(** [df[list(feature_columns)]]: the listed labels in the listed order, a
    [KeyError] if one of them is not a column. *)
Definition select_columns (names : list string) (df : DataFrame) : result DataFrame :=
  match filter (λ n, n ∉ columns df) names with
  | [] => Ok {| index := index df;
                cols := n ← names; labelled n df |}
  | missing :: _ => Raise (KeyError (missing +:+ " not in index"))
  end.

(** [df[col]] used as a series.  Under a repeated label [df[col]] is a frame,
    and the test [if df[col].isna().any()] on it raises [ValueError]. *)
Definition series_at (col : string) (df : DataFrame) : result column :=
  match labelled col df with
  | [] => Raise (KeyError col)
  | [nc] => Ok nc.2
  | _ :: _ :: _ => Raise (ValueError "The truth value of a Series is ambiguous")
  end.

Definition prepare_input_dataframe (df : ref) (feature_columns : list string)
    (metadata : option (gmap string (gmap string json_scalar))) : M ref :=
  let meta_defaults := meta_defaults_of metadata in
  (* Add missing columns *)
  let! _ := for_each feature_columns (λ col,
    let! t := deref df in
    if negb (has_column col t) then
      let default_ := default VNaN (meta_defaults !! col) in
      assign df (set_column col (broadcast default_ (nrows t)) t)
    else ret tt) in
  (* Keep only feature_columns and reorder; the local name is rebound to a
     new object *)
  let! t := deref df in
  let! sel := lift (select_columns feature_columns t) in
  let! df' := alloc sel in
  (* Fill still-missing values using defaults or column dtypes *)
  let! _ := for_each (columns sel) (λ col,
    let! cur := deref df' in
    let! c := lift (series_at col cur) in
    if isna_any c then
      match meta_defaults !! col with
      | Some d => assign df' (set_column col (fillna d c) cur)
      | None =>
          if is_numeric_dtype c
          then assign df' (set_column col (fillna (VNum 0) c) cur)
          else assign df' (set_column col (fillna (VStr "") c) cur)
      end
    else ret tt) in
  ret df'.

(** ** Closed form of the aligner *)

(** The column a feature name denotes before the fill pass: the input
    column of that name, or else the default (or the sentinel) repeated along
    the index. *)
Definition source_column (D : gmap string value) (t : DataFrame) (name : string) : column :=
  match labelled name t with
  | nc :: _ => nc.2
  | [] => broadcast (default VNaN (D !! name)) (nrows t)
  end.

(** The fill rule of lines 61-69 for one column. *)
Definition fill_missing (D : gmap string value) (name : string) (c : column) : column :=
  if isna_any c then
    match D !! name with
    | Some d => fillna d c
    | None => if is_numeric_dtype c then fillna (VNum 0) c else fillna (VStr "") c
    end
  else c.

(** The caller's frame after the first loop: the absent features appended. *)
Definition with_missing (D : gmap string value) (F : list string) (t : DataFrame) : DataFrame :=
  {| index := index t;
     cols := cols t ++
       ((λ n, (n, broadcast (default VNaN (D !! n)) (nrows t))) <$>
          filter (λ n, n ∉ columns t) F) |}.

(** The frame the aligner returns. *)
Definition aligned (D : gmap string value) (F : list string) (t : DataFrame) : DataFrame :=
  {| index := index t;
     cols := (λ n, (n, fill_missing D n (source_column D t n))) <$> F |}.

(** The fill pass restricted to the labels in [names]. *)
Definition fill_cols (D : gmap string value) (names : list string) (t : DataFrame) : DataFrame :=
  {| index := index t;
     cols := (λ nc : string * column,
                if bool_decide (nc.1 ∈ names)
                then (nc.1, fill_missing D nc.1 nc.2) else nc) <$> cols t |}.

(** A frame without missing values. *)
Definition no_missing (t : DataFrame) : Prop :=
  ∀ name c v, (name, c) ∈ cols t → v ∈ cells c → isna v = false.

(** ** Opaque objects and the environment *)

(** A bound method of a third-party object: it returns an array or fails with
    a message. *)
Definition method (A : Type) : Type := A → string + ndarray.

(** A deserialized artifact.  [PyObject] is an arbitrary object, described by
    the attributes this module looks for.  [Booster] is an instance of
    [xgb.Booster]: that class defines [predict] (line 110 calls it), which
    expects a [DMatrix], and defines neither [predict_proba] nor
    [transform]. *)
Inductive pyobj : Type :=
| PyObject (predict_proba : option (method predict_arg))
           (predict : option (method predict_arg))
           (transform : option (method transform_arg))
| Booster (predict : method predict_arg).

Definition attr_predict_proba (o : pyobj) : option (method predict_arg) :=
  match o with PyObject pp _ _ => pp | Booster _ => None end.

Definition attr_predict (o : pyobj) : option (method predict_arg) :=
  match o with PyObject _ p _ => p | Booster p => Some p end.

Definition attr_transform (o : pyobj) : option (method transform_arg) :=
  match o with PyObject _ _ tr => tr | Booster _ => None end.

(** [isinstance(model, xgb.Booster)] *)
Definition isinstance_Booster (o : pyobj) : bool :=
  match o with PyObject _ _ _ => false | Booster _ => true end.

(** [hasattr(obj, name)] *)
Definition hasattr {A} (attr : option A) : bool :=
  match attr with Some _ => true | None => false end.

(** [obj.name(arg)]: the attribute is looked up, then called. *)
Definition call_method {A} (name : string) (attr : option (method A))
    (ev : A → event) (arg : A) : M ndarray :=
  match attr with
  | Some f => external (ev arg) (f arg)
  | None => raise (AttributeError ("object has no attribute '" +:+ name +:+ "'"))
  end.

(** The file system and the parsers, as the run finds them. [np_load] gives
    the stored names as [str] renders them; [pickle_load] stands for opening
    the file and unpickling it. *)
Record environment : Type := Environment {
  path_exists : string → bool;
  joblib_load : string → string + pyobj;
  pickle_load : string → string + pyobj;
  np_load : string → string + list string;
  json_load : string → string + gmap string (gmap string json_scalar);
  read_csv : string → string + DataFrame
}.

(** [needle in hay] on strings. *)
Fixpoint contains (needle hay : string) : bool :=
  String.prefix needle hay ||
  match hay with
  | EmptyString => false
  | String _ hay' => contains needle hay'
  end.

(** ** The artifact loader *)

Definition load_pickle_or_joblib (env : environment) (path : string) : M pyobj :=
  if negb (path_exists env path) then
    raise (FileNotFoundError ("File not found: " +:+ path))
  else
    (* Try joblib first; [except Exception: pass] *)
    let! loaded :=
      try_except
        (let! o := external (EvJoblibLoad path) (joblib_load env path) in
         ret (Some o))
        (λ _, ret None) in
    match loaded with
    | Some o => ret o
    | None =>
        (* Fall back to pickle *)
        try_except
          (external (EvPickleLoad path) (pickle_load env path))
          (λ e, raise (RuntimeError
             ("Failed to load " +:+ path +:+ " with joblib or pickle: "
              +:+ str_exn e)))
    end.

Definition load_features (env : environment) (path : string) : M (list string) :=
  external (EvNpLoad path) (np_load env path).

Definition load_metadata (env : environment) (path : string)
  : M (gmap string (gmap string json_scalar)) :=
  external (EvJsonLoad path) (json_load env path).

(** ** The preprocessing adapter *)

(** [df.values]: the cells row by row, without labels. *)
Definition df_values (df : DataFrame) : ndarray :=
  {| shape := [nrows df; length (cols df)];
     data := i ← seq 0 (nrows df);
             (λ nc : string * column, default VNaN (cells nc.2 !! i)) <$> cols df |}.

Definition apply_preprocessor (preprocessor : pyobj) (df : ref) : M ndarray :=
  try_except
    (let! t := deref df in
     call_method "transform" (attr_transform preprocessor) EvTransform (TFrame t))
    (λ e,
      (* Some pipelines expect numpy arrays; try passing values *)
      try_except
        (let! t := deref df in
         call_method "transform" (attr_transform preprocessor) EvTransform
           (TValues (df_values t)))
        (λ e2, raise (RuntimeError
           ("Preprocessor.transform failed: " +:+ str_exn e
            +:+ "; fallback failed: " +:+ str_exn e2)))).

(** ** Array operations used by the inference adapter *)

(** [1 - p] on one element. *)
Definition one_minus (v : value) : result value :=
  match v with
  | VNum q => Ok (VNum (1 - q))
  | VNaN => Ok VNaN
  | _ => Raise (TypeError "unsupported operand type(s) for -")
  end.

Fixpoint map_result {A B} (f : A → result B) (l : list A) : result (list B) :=
  match l with
  | [] => Ok []
  | x :: l' =>
      match f x with
      | Raise e => Raise e
      | Ok y => match map_result f l' with
                | Raise e => Raise e
                | Ok ys => Ok (y :: ys)
                end
      end
  end.

(** [1 - a], elementwise. *)
Definition np_one_minus (a : ndarray) : result ndarray :=
  match map_result one_minus (data a) with
  | Ok d => Ok {| shape := shape a; data := d |}
  | Raise e => Raise e
  end.

(** [np.vstack([a, b])] of two one-dimensional arrays of one length. *)
Definition np_vstack2 (a b : ndarray) : result ndarray :=
  if Nat.eqb (length (data a)) (length (data b)) then
    Ok {| shape := [2%nat; length (data a)]; data := data a ++ data b |}
  else Raise (ValueError "all the input array dimensions must match exactly").

(** [a.T] of a two-dimensional array (other arrays are not transposed
    here). *)
Definition np_T (a : ndarray) : ndarray :=
  match shape a with
  | [r; c] =>
      {| shape := [c; r];
         data := j ← seq 0 c;
                 (λ i, default VNaN (data a !! (i * c + j)%nat)) <$> seq 0 r |}
  | _ => a
  end.

(** The order [np.argmax] maximises: numbers by value, [nan] above all. *)
Definition value_lt (a b : value) : bool :=
  match a, b with
  | VNum x, VNum y => negb (Qle_bool y x)
  | VNum _, VNaN => true
  | _, _ => false
  end.

Fixpoint argmax_from (i best : nat) (bv : value) (l : list value) : nat :=
  match l with
  | [] => best
  | v :: l' =>
      if value_lt bv v then argmax_from (S i) i v l'
      else argmax_from (S i) best bv l'
  end.

(** Position of the first maximum of a non-empty list. *)
Definition argmax (l : list value) : nat :=
  match l with
  | [] => 0%nat
  | v :: l' => argmax_from 1 0 v l'
  end.

(** [np.argmax(a, axis=1)] *)
Definition np_argmax_axis1 (a : ndarray) : result ndarray :=
  match shape a with
  | n :: k :: rest =>
      if Nat.eqb k 0 then
        Raise (ValueError "attempt to get argmax of an empty sequence")
      else
        let R := size_of rest in
        Ok {| shape := n :: rest;
              data := i ← seq 0 n;
                      (λ j, VNum (inject_Z (Z.of_nat (argmax
                         ((λ c, default VNaN (data a !! ((i * k + c) * R + j)%nat))
                            <$> seq 0 k))))) <$> seq 0 R |}
  | _ => Raise (AxisError "axis 1 is out of bounds")
  end.

(** ** The inference adapter *)

Definition no_interface_msg : string :=
  "Model does not have a supported predict / predict_proba interface.".

Definition predict_with_model (model : pyobj) (X : ndarray)
  : M (ndarray * option ndarray) :=
  (* scikit-learn API *)
  if hasattr (attr_predict_proba model) then
    let! proba := call_method "predict_proba" (attr_predict_proba model)
                    EvPredictProba (PRaw X) in
    let! preds := call_method "predict" (attr_predict model) EvPredict (PRaw X) in
    ret (preds, Some proba)
  (* scikit-learn predict only *)
  else if hasattr (attr_predict model) then
    let! preds := call_method "predict" (attr_predict model) EvPredict (PRaw X) in
    ret (preds, None)
  else
    (* XGBoost raw Booster; [except Exception: pass] *)
    let! found :=
      try_except
        (if isinstance_Booster model then
           let dmat := PDMatrix X in
           let! proba := call_method "predict" (attr_predict model) EvPredict dmat in
           let! proba :=
             (if Nat.eqb (ndim proba) 1 then
                let! q := lift (np_one_minus proba) in
                let! st := lift (np_vstack2 q proba) in
                ret (np_T st)
              else ret proba) in
           let! preds := lift (np_argmax_axis1 proba) in
           ret (Some (preds, Some proba))
         else ret None)
        (λ _, ret None) in
    match found with
    | Some res => ret res
    | None => raise (RuntimeError no_interface_msg)
    end.
(** ** The result assembler and the pipeline *)

(** The dtype pandas infers for a column built from a sequence. *)
Definition infer_dtype (l : list value) : dtype :=
  if forallb (λ v, match v with VNaN | VNum _ => true | _ => false end) l
  then Numeric else Object.

Definition column_of_values (l : list value) : column :=
  {| dtype_of := infer_dtype l; cells := l |}.

(** [RangeIndex(n)] *)
Definition range_index (n : nat) : list Z := Z.of_nat <$> seq 0 n.

(** [list(a)]: the items of [a] along its first axis; each item of a
    two-dimensional array is a row vector. *)
Definition np_list (a : ndarray) : result (list value) :=
  match shape a with
  | [] => Raise (TypeError "iteration over a 0-d array")
  | n :: rest =>
      Ok ((λ i,
             match rest with
             | [] => default VNaN (data a !! i)
             | _ => VArr rest (take (size_of rest) (drop (i * size_of rest) (data a)))
             end) <$> seq 0 n)
  end.

(** The items of [list(a)], empty where [list(a)] raises. *)
Definition np_items (a : ndarray) : list value :=
  match np_list a with Ok l => l | Raise _ => [] end.

(** [a[:, i]] of a two-dimensional array. *)
Definition np_column (i : nat) (a : ndarray) : ndarray :=
  match shape a with
  | [n; k] =>
      {| shape := [n];
         data := (λ r, default VNaN (data a !! (r * k + i)%nat)) <$> seq 0 n |}
  | _ => a
  end.

(** [df[col] = vals] for a sequence: a frame whose index is still empty
    takes its index from the first non-empty sequence assigned to it;
    otherwise the lengths must agree. *)
Definition setitem_values (col : string) (vals : list value) (df : DataFrame)
  : result DataFrame :=
  let df1 :=
    if Nat.eqb (nrows df) 0 && negb (Nat.eqb (length vals) 0) then
      {| index := range_index (length vals);
         cols := (λ nc : string * column,
                    (nc.1, {| dtype_of := dtype_of nc.2;
                              cells := replicate (length vals) VNaN |}))
                 <$> cols df |}
    else df in
  if Nat.eqb (length vals) (nrows df1) then
    Ok (set_column col (column_of_values vals) df1)
  else Raise (ValueError "Length of values does not match length of index").

(** [df[col] = a] for an array: a 0-d array is a scalar, a one-dimensional
    array or a single-column matrix is a sequence, anything wider is
    refused. *)
Definition setitem_array (col : string) (a : ndarray) (df : DataFrame)
  : result DataFrame :=
  match shape a with
  | [] => Ok (set_column col (broadcast (default VNaN (data a !! 0%nat)) (nrows df)) df)
  | [n] =>
      match np_list a with
      | Ok vals => setitem_values col vals df
      | Raise e => Raise e
      end
  | [n; 1%nat] =>
      if Nat.eqb (nrows df) 0 && negb (Nat.eqb n 0) then
        Raise (ValueError "Cannot set a frame with no defined index")
      else setitem_values col (data (np_column 0 a)) df
  | _ => Raise (ValueError "Expected a 1D array")
  end.

(** The column the assembler adds for class [i]. *)
Definition class_column (proba : ndarray) (i : nat) : string * column :=
  ("proba_class_" +:+ pretty i, column_of_values (data (np_column i proba))).

(** Every column is as long as the index. *)
Definition wf_frame (df : DataFrame) : Prop :=
  ∀ n c, (n, c) ∈ cols df → length (cells c) = nrows df.

(** What every successful column assignment preserves. *)
Definition keeps (df df' : DataFrame) (col : string) : Prop :=
  col ∈ columns df'
  ∧ (∀ n, n ∈ columns df → n ∈ columns df')
  ∧ (wf_frame df → wf_frame df')
  ∧ (index df ≠ [] → index df' = index df).

(** The invariant of the assembler's local frame. *)
Definition out_inv (idx : list Z) (out : DataFrame) : Prop :=
  "prediction" ∈ columns out ∧ wf_frame out ∧ (idx ≠ [] → index out = idx).

(** A loop that rebinds one local variable. *)
Fixpoint fold_each {A S} (l : list A) (s : S) (body : S → A → M S) : M S :=
  match l with
  | [] => ret s
  | x :: l' => let! s' := body s x in fold_each l' s' body
  end.

(** Lines 150-159 of [run_predictions]: the result table. *)
Definition build_output (original_index : list Z) (preds : ndarray)
    (proba : option ndarray) : M DataFrame :=
  let out := {| index := original_index; cols := [] |} in
  let! out := lift (setitem_array "prediction" preds out) in
  match proba with
  | None => ret out
  | Some proba =>
      (* If proba is 2D with classes, add columns *)
      if Nat.eqb (ndim proba) 2 && Nat.leb (nth 1 (shape proba) 0%nat) 10 then
        fold_each (seq 0 (nth 1 (shape proba) 0%nat)) out (λ out i,
          lift (setitem_array ("proba_class_" +:+ pretty i) (np_column i proba) out))
      else
        let! items := lift (np_list proba) in
        lift (setitem_values "proba" items out)
  end.

(** [df.loc[:k]] on an increasing index: the rows labelled at most [k]. *)
Definition loc_upto (k : Z) (df : DataFrame) : DataFrame :=
  let keep := (λ lbl, bool_decide (lbl ≤ k)%Z) <$> index df in
  let pick {A} (l : list A) : list A :=
    (zip keep l) ≫= (λ p : bool * A, if p.1 then [p.2] else []) in
  {| index := pick (index df);
     cols := (λ nc : string * column,
                (nc.1, {| dtype_of := dtype_of nc.2; cells := pick (cells nc.2) |}))
             <$> cols df |}.

(** [df.reset_index(drop=True)] *)
Definition reset_index (df : DataFrame) : DataFrame :=
  {| index := range_index (nrows df); cols := cols df |}.

(** [pd.concat([a, b], axis=1)] of two frames with fresh range indexes: the
    columns side by side, the shorter frame padded with missing values. *)
Definition concat_axis1 (a b : DataFrame) : DataFrame :=
  let n := Nat.max (nrows a) (nrows b) in
  let pad := (λ nc : string * column,
                (nc.1, {| dtype_of := dtype_of nc.2;
                          cells := take n (cells nc.2 ++ replicate n VNaN) |})) in
  {| index := range_index n; cols := (pad <$> cols a) ++ (pad <$> cols b) |}.

(** A path argument that is [None] or empty counts as absent. *)
Definition given_path (p : option string) : option string :=
  match p with
  | Some s => if String.eqb s "" then None else Some s
  | None => None
  end.

Definition to_csv (path : string) (df : DataFrame) : M unit :=
  λ w, (Ok tt, {| heap := heap w; log := log w ++ [EvToCsv path df] |}).

Definition run_predictions (env : environment)
    (model_path feature_path : string)
    (preprocessor_path meta_path : option string)
    (input_csv : string) (output_csv : option string) (sample_rows : Z)
  : M DataFrame :=
  (* Load artifacts *)
  let! model := load_pickle_or_joblib env model_path in
  let! feature_columns := load_features env feature_path in
  let! preprocessor :=
    match given_path preprocessor_path with
    | Some p => let! o := load_pickle_or_joblib env p in ret (Some o)
    | None => ret None
    end in
  let! metadata :=
    match given_path meta_path with
    | Some p => load_metadata env p
    | None => ret ∅
    end in
  (* Load input CSV *)
  let! t := external (EvReadCsv input_csv) (read_csv env input_csv) in
  let! df := alloc t in
  let original_index := index t in
  (* Prepare features *)
  let! df_prepared := prepare_input_dataframe df feature_columns (Some metadata) in
  (* Apply preprocessor if present *)
  let! X :=
    match preprocessor with
    | Some p => apply_preprocessor p df_prepared
    | None => let! tp := deref df_prepared in ret (df_values tp)
    end in
  (* Predict *)
  let! res := predict_with_model model X in
  (* Build output DataFrame *)
  let! out := build_output original_index res.1 res.2 in
  (* The preview reads the caller-side frame [df], not [df_prepared] *)
  let! cur := deref df in
  let sample_out :=
    concat_axis1 (reset_index (loc_upto (sample_rows - 1) cur)) (reset_index out) in
  (* Save CSV if requested *)
  let! _ := match given_path output_csv with
            | Some p => to_csv p out
            | None => ret tt
            end in
  ret sample_out.
(** ** Concrete inputs used in the examples below *)

Module Ex.
(** One row, no columns: [pd.DataFrame([{}])]. *)
Definition empty_row : DataFrame := {| index := [0%Z]; cols := [] |}.

(** One row with a column the model does not know. *)
Definition extra_column : DataFrame :=
  {| index := [0%Z];
     cols := [("x", {| dtype_of := Numeric; cells := [VNum 7] |})] |}.

(** [{"feature_defaults": {"a": 123, "b": "foo"}}] *)
Definition meta_ab : gmap string (gmap string json_scalar) :=
  {[ "feature_defaults" := <["a" := JNum 123]> {[ "b" := JStr "foo" ]} ]}.

(** [{"feature_defaults": {"a": NaN}}] *)
Definition meta_nan : gmap string (gmap string json_scalar) :=
  {[ "feature_defaults" := {[ "a" := JNaN ]} ]}.

Definition world_of (t : DataFrame) : world := {| heap := [t]; log := [] |}.

(** The aligned frame of the end-to-end scenario: [{a: 123, b: "foo"}]. *)
Definition aligned_ab : DataFrame :=
  {| index := [0%Z];
     cols := [("a", {| dtype_of := Numeric; cells := [VNum 123] |});
              ("b", {| dtype_of := Object; cells := [VStr "foo"] |})] |}.

(** A file that exists and that neither format can read. *)
Definition env_corrupt : environment :=
  {| path_exists := λ _, true;
     joblib_load := λ _, inl "bad magic number";
     pickle_load := λ _, inl "invalid load key";
     np_load := λ _, inl "not an npy file";
     json_load := λ _, inl "not json";
     read_csv := λ _, inl "no such file" |}.

Definition empty_world : world := {| heap := []; log := [] |}.

(** A two-row, two-feature input matrix. *)
Definition X22 : ndarray :=
  {| shape := [2%nat; 2%nat]; data := [VNum 1; VNum 2; VNum 3; VNum 4] |}.

(** Raw binary predictions [0.2, 0.7]. *)
Definition raw_binary : ndarray :=
  {| shape := [2%nat]; data := [VNum (2 # 10); VNum (7 # 10)] |}.

(** An [xgb.Booster]: its [predict] answers a [DMatrix] and refuses any other
    input, as the library does. *)
Definition booster : pyobj :=
  Booster (λ arg,
    match arg with
    | PDMatrix _ => inr raw_binary
    | PRaw _ => inl "Expecting data to be a DMatrix object"
    end).

(** What the specification expects for [raw_binary]: labels [0, 1] and the
    matrix [[0.8, 0.2], [0.3, 0.7]]. *)
Definition expected_labels : ndarray :=
  {| shape := [2%nat]; data := [VNum 0; VNum 1] |}.

Definition expected_proba : ndarray :=
  {| shape := [2%nat; 2%nat];
     data := [VNum (8 # 10); VNum (2 # 10); VNum (3 # 10); VNum (7 # 10)] |}.

(** A scikit-learn style classifier with both operations. *)
Definition labels2 : ndarray := {| shape := [2%nat]; data := [VNum 0; VNum 1] |}.

Definition classifier : pyobj :=
  PyObject (Some (λ _, inr expected_proba)) (Some (λ _, inr labels2)) None.

(** A preprocessor that only accepts a bare matrix. *)
Definition matrix_only_transform : method transform_arg :=
  λ arg, match arg with
         | TFrame _ => inl "columns are missing"
         | TValues a => inr a
         end.

Definition matrix_only : pyobj :=
  PyObject None None (Some matrix_only_transform).

(** Three labels and a probability matrix of shape (3, 12). *)
Definition labels3 : ndarray :=
  {| shape := [3%nat]; data := [VNum 0; VNum 5; VNum 11] |}.

Definition proba_3_12 : ndarray :=
  {| shape := [3%nat; 12%nat];
     data := (λ i, VNum (inject_Z (Z.of_nat i))) <$> seq 0 36 |}.

(** A two-row input file with one known and one unknown column, and the
    artifacts of a run without preprocessor. *)
Definition input_2rows : DataFrame :=
  {| index := [0%Z; 1%Z];
     cols := [("x", {| dtype_of := Object; cells := [VStr "u"; VStr "v"] |});
              ("a", {| dtype_of := Numeric; cells := [VNum 5; VNaN] |})] |}.

Definition env_ok : environment :=
  {| path_exists := λ _, true;
     joblib_load := λ _, inr classifier;
     pickle_load := λ _, inl "not a pickle";
     np_load := λ _, inr ["a"; "b"];
     json_load := λ _, inr meta_ab;
     read_csv := λ _, inr input_2rows |}.
End Ex.

(** Decides [NoDup] of a concrete list by evaluation. *)
Ltac nodup_by_computation :=
  match goal with
  | |- ?P => apply (bool_decide_unpack P); vm_compute; exact I
  end.

(** ** Effects of a computation on the world *)

(** [w'] comes after [w]: the log has grown by events that satisfy [P], and
    every object of the store is still there with the index it had. *)
Definition extends (P : event → Prop) (w w' : world) : Prop :=
  (∃ evs, log w' = log w ++ evs ∧ Forall P evs)
  ∧ (∀ r t, heap w !! r = Some t →
       ∃ t', heap w' !! r = Some t' ∧ index t' = index t).

(** Whatever its outcome, [m] only logs events that satisfy [P] and keeps the
    index of every object. *)
Definition emits {A} (P : event → Prop) (m : M A) : Prop :=
  ∀ w r w', m w = (r, w') → extends P w w'.


(** Calling an operation of the model. *)
Definition is_model_call (e : event) : Prop :=
  ∃ arg, e = EvPredictProba arg ∨ e = EvPredict arg.

(** The calls [predict_with_model model X] may make. *)
Definition raw_call (X : ndarray) (e : event) : Prop :=
  e = EvPredictProba (PRaw X) ∨ e = EvPredict (PRaw X).



(** ** The command line entry point *)

(** The command line as [argparse] hands it over ([--model], [--features]
    and [--input] are required, [--sample-rows] defaults to 5). *)
Record arguments : Type := Arguments {
  arg_model : string;
  arg_features : string;
  arg_preprocessor : option string;
  arg_meta : option string;
  arg_input : string;
  arg_output : option string;
  arg_sample_rows : Z
}.

(** [df.head(n)]: the first [n] rows; for a negative [n], all rows but the
    last [-n]. *)
Definition df_head (n : Z) (df : DataFrame) : DataFrame :=
  let m := if (0 <=? n)%Z then Z.to_nat n
           else (nrows df - Z.to_nat (- n))%nat in
  {| index := take m (index df);
     cols := (λ nc : string * column,
                (nc.1, {| dtype_of := dtype_of nc.2; cells := take m (cells nc.2) |}))
             <$> cols df |}.

(** What is written to the console: a line of text, or a table rendered by
    [to_string(index=False)]. *)
Inductive printed : Type :=
| PrintLine (s : string)
| PrintTable (df : DataFrame).

(** [main], from the parsed arguments on; its result is what it prints. *)
Definition main (env : environment) (args : arguments) : M (list printed) :=
  let! sample_out :=
    run_predictions env (arg_model args) (arg_features args)
      (arg_preprocessor args) (arg_meta args) (arg_input args)
      (arg_output args) (arg_sample_rows args) in
  ret [PrintLine "Sample prediction output (first rows):";
       PrintTable (df_head (arg_sample_rows args) sample_out)].

(** ** More concrete inputs *)

Module Ex2.
(** Only the generic format reads the file. *)
Definition env_pickle_only : environment :=
  {| path_exists := λ _, true;
     joblib_load := λ _, inl "bad magic number";
     pickle_load := λ _, inr Ex.classifier;
     np_load := λ _, inr ["a"; "b"];
     json_load := λ _, inr Ex.meta_ab;
     read_csv := λ _, inr Ex.input_2rows |}.

(** No file exists. *)
Definition env_nothing : environment :=
  {| path_exists := λ _, false;
     joblib_load := λ _, inl "no such file";
     pickle_load := λ _, inl "no such file";
     np_load := λ _, inl "no such file";
     json_load := λ _, inl "no such file";
     read_csv := λ _, inl "no such file" |}.

(** An estimator with probabilities and without a label operation. *)
Definition proba_method : method predict_arg := λ _, inr Ex.expected_proba.

Definition proba_only : pyobj := PyObject (Some proba_method) None None.

(** An object without [transform]. *)
Definition not_a_preprocessor : pyobj := PyObject None None None.

(** Metadata with both keys. *)
Definition meta_both : gmap string (gmap string json_scalar) :=
  <["feature_defaults" := {[ "a" := JNum 1 ]}]>
    {[ "defaults" := <["a" := JNum 2]> {[ "b" := JNum 3 ]} ]}.

(** Metadata with the key [defaults] only. *)
Definition meta_defaults_only : gmap string (gmap string json_scalar) :=
  {[ "defaults" := {[ "b" := JNum 3 ]} ]}.

(** A command line for the example run, asking for one preview row. *)
Definition args_one_row : arguments :=
  {| arg_model := "model.pkl"; arg_features := "features.npy";
     arg_preprocessor := None; arg_meta := Some "meta.json";
     arg_input := "in.csv"; arg_output := Some "out.csv";
     arg_sample_rows := 1 |}.
End Ex2.
(** ** Basic facts about the monad *)

Lemma bind_ok {A B} (m : M A) (k : A → M B) w a w' :
  m w = (Ok a, w') → bind m k w = k a w'.
Proof. intros H. unfold bind. by rewrite H. Qed.

Lemma bind_raise {A B} (m : M A) (k : A → M B) w e w' :
  m w = (Raise e, w') → bind m k w = (Raise e, w').
Proof. intros H. unfold bind. by rewrite H. Qed.

Lemma deref_ok r w t : heap w !! r = Some t → deref r w = (Ok t, w).
Proof. intros H. unfold deref. by rewrite H. Qed.

(** ** Facts about labels *)

Section labels.
Context {V : Type}.
Implicit Types (l : list (string * V)) (n : string).

Lemma filter_label_absent l n :
  n ∉ l.*1 → filter (λ nc : string * V, nc.1 = n) l = [].
Proof.
  induction l as [|[m c] l IH]; [done|]. cbn [fmap list_fmap fst].
  intros Hn. apply not_elem_of_cons in Hn as [Hne Hn].
  rewrite filter_cons_False; [by apply IH | cbn; congruence].
Qed.

Lemma filter_label_unique l n c :
  NoDup l.*1 → (n, c) ∈ l → filter (λ nc : string * V, nc.1 = n) l = [(n, c)].
Proof.
  induction l as [|[m d] l IH]; [by intros _ ?%elem_of_nil|].
  cbn [fmap list_fmap fst]. intros [Hm Hnd]%NoDup_cons [Heq|Hin]%elem_of_cons.
  - inversion Heq; subst. rewrite filter_cons_True; [|done].
    by rewrite filter_label_absent.
  - assert (m ≠ n).
    { intros ->. apply Hm. apply list_elem_of_fmap. by exists (n, c). }
    rewrite filter_cons_False; [by apply IH | cbn; done].
Qed.

Lemma label_has_column l n : n ∈ l.*1 → ∃ c, (n, c) ∈ l.
Proof.
  intros ([m c] & -> & Hin)%list_elem_of_fmap. by exists c.
Qed.
End labels.

(** ** The two loops and the selection of the aligner *)

Lemma filter_ext_elem {A} (P Q : A → Prop)
    `{!∀ x, Decision (P x)} `{!∀ x, Decision (Q x)} (l : list A) :
  (∀ x, x ∈ l → P x ↔ Q x) → filter P l = filter Q l.
Proof.
  induction l as [|a l IH]; intros HPQ; [done|].
  rewrite !filter_cons. rewrite IH by (intros x Hx; apply HPQ; by right).
  destruct (decide (P a)) as [HP|HP], (decide (Q a)) as [HQ|HQ]; try done;
    exfalso; apply (HPQ a) in HP || apply (HPQ a) in HQ; try done; by left.
Qed.

Lemma set_column_new col c t :
  col ∉ columns t →
  set_column col c t = {| index := index t; cols := cols t ++ [(col, c)] |}.
Proof.
  intros H. unfold set_column, has_column. by rewrite bool_decide_eq_false_2.
Qed.

Lemma world_eta w : {| heap := heap w; log := log w |} = w.
Proof. by destruct w. Qed.

Lemma frame_eta t : {| index := index t; cols := cols t |} = t.
Proof. by destruct t. Qed.

Lemma with_missing_nil D t : with_missing D [] t = t.
Proof. unfold with_missing. cbn. rewrite app_nil_r. apply frame_eta. Qed.

Lemma with_missing_present D col F t :
  col ∈ columns t → with_missing D (col :: F) t = with_missing D F t.
Proof.
  intros H. unfold with_missing. by rewrite filter_cons_False by (by intros ?).
Qed.

Lemma with_missing_absent D col F t :
  col ∉ columns t → col ∉ F →
  with_missing D (col :: F) t =
  with_missing D F
    (set_column col (broadcast (default VNaN (D !! col)) (nrows t)) t).
Proof.
  intros H HF. rewrite set_column_new by done. unfold with_missing, nrows, columns.
  cbn [index cols]. rewrite filter_cons_True by done. rewrite fmap_cons, <-app_assoc.
  cbn [app]. set (b := broadcast _ _).
  assert (filter (λ n, n ∉ (cols t ++ [(col, b)]).*1) F
          = filter (λ n, n ∉ (cols t).*1) F) as ->; [|done].
  apply filter_ext_elem. intros n Hn. rewrite fmap_app, elem_of_app. cbn.
  rewrite list_elem_of_singleton. split; [tauto|].
  intros Hnot [?| ->]; [tauto|done].
Qed.

Lemma add_missing_loop D df F : ∀ t w,
  heap w !! df = Some t → NoDup F →
  for_each F (λ col,
    let! t := deref df in
    if negb (has_column col t) then
      assign df (set_column col (broadcast (default VNaN (D !! col)) (nrows t)) t)
    else ret tt) w
  = (Ok tt, {| heap := <[df := with_missing D F t]> (heap w); log := log w |}).
Proof.
  induction F as [|col F IH]; intros t w Hdf Hnd.
  - cbn. unfold ret. rewrite with_missing_nil, list_insert_id by done.
    by rewrite world_eta.
  - apply NoDup_cons in Hnd as [Hcol Hnd]. cbn [for_each].
    unfold bind at 1. unfold bind at 1. rewrite (deref_ok _ _ _ Hdf).
    destruct (has_column col t) eqn:Hin; cbn [negb];
      unfold has_column in Hin.
    + apply bool_decide_eq_true_1 in Hin.
      unfold ret at 1. rewrite (IH t w Hdf Hnd).
      by rewrite with_missing_present.
    + apply bool_decide_eq_false_1 in Hin.
      unfold assign at 1.
      set (t1 := set_column col _ t).
      rewrite (IH t1); [|cbn; apply list_lookup_insert_eq; by eapply lookup_lt_Some|done].
      cbn [heap log]. rewrite list_insert_insert_eq.
      by rewrite with_missing_absent.
Qed.

Lemma filter_none {A} (P : A → Prop) `{!∀ x, Decision (P x)} (l : list A) :
  (∀ x, x ∈ l → ¬ P x) → filter P l = [].
Proof.
  induction l as [|a l IH]; intros Hall; [done|].
  rewrite filter_cons_False by (apply Hall; by left).
  apply IH. intros x Hx. apply Hall. by right.
Qed.

Lemma columns_with_missing D F t :
  columns (with_missing D F t) = columns t ++ filter (λ n, n ∉ columns t) F.
Proof.
  unfold with_missing, columns. cbn [cols]. rewrite fmap_app. f_equal.
  rewrite <-list_fmap_compose. apply list_fmap_id.
Qed.

Lemma NoDup_columns_with_missing D F t :
  NoDup (columns t) → NoDup F → NoDup (columns (with_missing D F t)).
Proof.
  intros Ht HF. rewrite columns_with_missing. apply NoDup_app.
  split_and!; [done| |by apply NoDup_filter].
  intros n Hn [Hnot _]%list_elem_of_filter. done.
Qed.

Lemma labelled_with_missing D F t n :
  NoDup (columns t) → NoDup F → n ∈ F →
  labelled n (with_missing D F t) = [(n, source_column D t n)].
Proof.
  intros Ht HF Hn. unfold labelled.
  apply filter_label_unique; [by apply NoDup_columns_with_missing|].
  unfold with_missing, source_column. cbn [cols]. apply elem_of_app.
  destruct (decide (n ∈ columns t)) as [Hin|Hin].
  - left. apply label_has_column in Hin as [c Hc].
    unfold labelled. by rewrite (filter_label_unique _ _ _ Ht Hc).
  - right. unfold labelled. rewrite (filter_label_absent _ _ Hin).
    apply list_elem_of_fmap. exists n. split; [done|].
    by apply list_elem_of_filter.
Qed.

Lemma select_columns_with_missing D F t :
  NoDup (columns t) → NoDup F →
  select_columns F (with_missing D F t) =
  Ok {| index := index t; cols := (λ n, (n, source_column D t n)) <$> F |}.
Proof.
  intros Ht HF. unfold select_columns.
  rewrite filter_none.
  - f_equal. cbn [with_missing index]. f_equal.
    assert (∀ G, G ⊆ F →
      G ≫= (λ n, labelled n (with_missing D F t))
      = (λ n, (n, source_column D t n)) <$> G) as HG.
    { induction G as [|n G IH]; intros Hsub; [done|].
      rewrite bind_cons, IH by set_solver.
      rewrite labelled_with_missing by set_solver. done. }
    by apply HG.
  - intros n Hn Hnot. apply Hnot. rewrite columns_with_missing.
    apply elem_of_app. destruct (decide (n ∈ columns t)); [by left|right].
    by apply list_elem_of_filter.
Qed.

Lemma fmap_ext_elem {A B} (f g : A → B) (l : list A) :
  (∀ x, x ∈ l → f x = g x) → f <$> l = g <$> l.
Proof.
  intros H. apply list_fmap_ext. intros i x Hx. apply H.
  by eapply list_elem_of_lookup_2.
Qed.

Lemma label_functional {V} (l : list (string * V)) n c c' :
  NoDup l.*1 → (n, c) ∈ l → (n, c') ∈ l → c = c'.
Proof.
  intros Hnd Hc Hc'.
  pose proof (filter_label_unique l n c Hnd Hc) as H1.
  pose proof (filter_label_unique l n c' Hnd Hc') as H2.
  congruence.
Qed.

Lemma columns_fill_cols D names t : columns (fill_cols D names t) = columns t.
Proof.
  unfold fill_cols, columns. cbn [cols]. rewrite <-list_fmap_compose.
  apply list_fmap_ext. intros i [n c] _. cbn. by case_bool_decide.
Qed.

Lemma fill_cols_id D names t :
  (∀ n c, (n, c) ∈ cols t → n ∈ names → fill_missing D n c = c) →
  fill_cols D names t = t.
Proof.
  intros H. unfold fill_cols. rewrite <-(frame_eta t) at 3. f_equal.
  rewrite <-(list_fmap_id (cols t)) at 2. apply fmap_ext_elem.
  intros [n c] Hin. cbn. case_bool_decide; [|done]. by rewrite H.
Qed.

Lemma fill_cols_cons D col names t :
  col ∉ names →
  fill_cols D names (fill_cols D [col] t) = fill_cols D (col :: names) t.
Proof.
  intros Hcol. unfold fill_cols. cbn [index cols]. f_equal.
  rewrite <-list_fmap_compose. apply list_fmap_ext. intros i [n c] _. cbn.
  destruct (decide (n = col)) as [->|Hne].
  - rewrite (bool_decide_eq_true_2 (col ∈ [col])) by set_solver. cbn.
    rewrite (bool_decide_eq_false_2 (col ∈ names)) by done.
    by rewrite (bool_decide_eq_true_2 (col ∈ col :: names)) by set_solver.
  - rewrite (bool_decide_eq_false_2 (n ∈ [col]))
      by (by intros ?%list_elem_of_singleton).
    cbn. rewrite (bool_decide_ext (n ∈ names) (n ∈ col :: names)); [done|].
    rewrite elem_of_cons. split; [by right|by intros [?|?]].
Qed.

Lemma set_column_fill D col c t :
  NoDup (columns t) → (col, c) ∈ cols t →
  set_column col (fill_missing D col c) t = fill_cols D [col] t.
Proof.
  intros Hnd Hc. unfold set_column, has_column, fill_cols.
  rewrite bool_decide_eq_true_2
    by (apply list_elem_of_fmap; by exists (col, c)).
  f_equal. apply fmap_ext_elem. intros [n d] Hin. cbn.
  destruct (String.eqb_spec n col) as [->|Hne].
  - rewrite bool_decide_eq_true_2 by set_solver.
    by rewrite (label_functional _ _ _ _ Hnd Hin Hc).
  - by rewrite bool_decide_eq_false_2 by (by intros ?%list_elem_of_singleton).
Qed.

Lemma series_at_unique col c t :
  NoDup (columns t) → (col, c) ∈ cols t → series_at col t = Ok c.
Proof.
  intros Hnd Hc. unfold series_at, labelled.
  by rewrite (filter_label_unique _ _ _ Hnd Hc).
Qed.

Lemma fill_loop D r names : ∀ t w,
  heap w !! r = Some t → NoDup (columns t) → NoDup names → names ⊆ columns t →
  for_each names (λ col,
    let! cur := deref r in
    let! c := lift (series_at col cur) in
    if isna_any c then
      match D !! col with
      | Some d => assign r (set_column col (fillna d c) cur)
      | None =>
          if is_numeric_dtype c
          then assign r (set_column col (fillna (VNum 0) c) cur)
          else assign r (set_column col (fillna (VStr "") c) cur)
      end
    else ret tt) w
  = (Ok tt, {| heap := <[r := fill_cols D names t]> (heap w); log := log w |}).
Proof.
  induction names as [|col names IH]; intros t w Hr Ht Hnd Hsub.
  - cbn. unfold ret. rewrite fill_cols_id by set_solver.
    by rewrite list_insert_id, world_eta.
  - apply NoDup_cons in Hnd as [Hcol Hnd].
    assert (col ∈ columns t) as [c Hc]%label_has_column by set_solver.
    pose proof (set_column_fill D col c t Ht Hc) as Hset.
    assert (heap (World (<[r := fill_cols D [col] t]> (heap w)) (log w)) !! r
            = Some (fill_cols D [col] t)) as Hr'.
    { cbn. apply list_lookup_insert_eq. by eapply lookup_lt_Some. }
    specialize (IH (fill_cols D [col] t) _ Hr').
    rewrite columns_fill_cols in IH. specialize (IH Ht Hnd).
    cbn [heap log] in IH. rewrite list_insert_insert_eq, fill_cols_cons in IH by done.
    cbn [for_each]. unfold bind at 1. unfold bind at 1. rewrite (deref_ok _ _ _ Hr).
    unfold bind at 1. unfold lift at 1. rewrite (series_at_unique _ _ _ Ht Hc).
    unfold fill_missing in Hset.
    destruct (isna_any c).
    + destruct (D !! col); [|destruct (is_numeric_dtype c)];
        unfold assign at 1; rewrite Hset; apply IH; set_solver.
    + unfold ret at 1.
      assert (fill_cols D [col] t = t) as Hid.
      { rewrite <-Hset. unfold set_column, has_column.
        rewrite bool_decide_eq_true_2
          by (apply list_elem_of_fmap; by exists (col, c)).
        rewrite <-(frame_eta t) at 3. f_equal.
        rewrite <-(list_fmap_id (cols t)) at 2. apply fmap_ext_elem.
        intros [n d] Hin. cbn. destruct (String.eqb_spec n col) as [->|]; [|done].
        by rewrite (label_functional _ _ _ _ Ht Hin Hc). }
      rewrite Hid, list_insert_id, world_eta in IH by done.
      apply IH. set_solver.
Qed.

Lemma columns_selected D F t :
  columns {| index := index t;
             cols := (λ n, (n, source_column D t n)) <$> F |} = F.
Proof.
  unfold columns. cbn [cols]. rewrite <-list_fmap_compose. apply list_fmap_id.
Qed.

Lemma fill_cols_selected D F t :
  fill_cols D F
    {| index := index t; cols := (λ n, (n, source_column D t n)) <$> F |}
  = aligned D F t.
Proof.
  unfold fill_cols, aligned. cbn [index cols]. f_equal.
  rewrite <-list_fmap_compose. apply fmap_ext_elem. intros n Hn. cbn.
  by rewrite bool_decide_eq_true_2.
Qed.

Lemma insert_snoc {A} (l : list A) (x y : A) :
  <[length l := x]> (l ++ [y]) = l ++ [x].
Proof.
  replace (length l) with (length l + 0)%nat by lia. by rewrite insert_app_r.
Qed.

(** The whole aligner in closed form: the caller's object receives the absent
    features, and the result is a new object holding the aligned frame. *)
Lemma prepare_input_dataframe_run df F md t w :
  heap w !! df = Some t → NoDup (columns t) → NoDup F →
  prepare_input_dataframe df F md w =
  (Ok (length (heap w)),
   {| heap := <[df := with_missing (meta_defaults_of md) F t]> (heap w)
              ++ [aligned (meta_defaults_of md) F t];
      log := log w |}).
Proof.
  intros Hdf Ht HF. unfold prepare_input_dataframe.
  set (D := meta_defaults_of md).
  rewrite (bind_ok _ _ _ _ _ (add_missing_loop D df F t w Hdf HF)).
  set (t1 := with_missing D F t).
  set (h1 := <[df := t1]> (heap w)).
  assert (h1 !! df = Some t1) as Hdf1.
  { apply list_lookup_insert_eq. by eapply lookup_lt_Some. }
  rewrite (bind_ok _ _ _ _ _ (deref_ok df (World h1 (log w)) t1 Hdf1)).
  unfold lift at 1. unfold bind at 1.
  unfold t1 at 1. rewrite select_columns_with_missing by done.
  set (sel := {| index := index t; cols := _ |}).
  unfold alloc at 1. unfold bind at 1. cbn [heap log].
  assert (length h1 = length (heap w)) as Hlen by apply length_insert.
  assert ((h1 ++ [sel]) !! length h1 = Some sel) as Hsel.
  { by rewrite lookup_app_r, Nat.sub_diag by lia. }
  unfold sel at 1. rewrite columns_selected. fold sel.
  rewrite (bind_ok _ _ _ _ _
    (fill_loop D (length h1) F sel (World (h1 ++ [sel]) (log w)) Hsel
       ltac:(unfold sel; by rewrite columns_selected) HF
       ltac:(unfold sel; by rewrite columns_selected))).
  unfold ret. cbn [heap log]. rewrite insert_snoc, Hlen.
  unfold sel. by rewrite fill_cols_selected.
Qed.

(** ** Properties of the aligner *)

Lemma isna_any_false c v : isna_any c = false → v ∈ cells c → isna v = false.
Proof.
  unfold isna_any. intros Hex Hv. destruct (isna v) eqn:Hna; [|done].
  assert (existsb isna (cells c) = true) as Ht; [|congruence].
  apply existsb_exists. exists v. split; [by apply list_elem_of_In|done].
Qed.

Lemma fillna_no_missing x c v :
  isna x = false → v ∈ cells (fillna x c) → isna v = false.
Proof.
  intros Hx. unfold fillna. cbn [cells].
  intros (y & -> & _)%list_elem_of_fmap. by destruct (isna y) eqn:Hy.
Qed.

Lemma isna_any_fillna x c : isna x = false → isna_any (fillna x c) = false.
Proof.
  intros Hx. unfold isna_any. apply not_true_is_false.
  intros (v & Hv%list_elem_of_In & Hna)%existsb_exists.
  by rewrite (fillna_no_missing x c v Hx Hv) in Hna.
Qed.

Lemma fillna_fillna x c : fillna x (fillna x c) = fillna x c.
Proof.
  unfold fillna, is_numeric_dtype. cbn [dtype_of cells]. f_equal.
  - destruct (dtype_of c), (is_str x); done.
  - rewrite <-list_fmap_compose. apply list_fmap_ext. intros i y _. cbn.
    destruct (isna y) eqn:Hy; [by destruct (isna x)|by rewrite Hy].
Qed.

Lemma fill_missing_no_missing D n c v :
  (∀ d, D !! n = Some d → isna d = false) →
  v ∈ cells (fill_missing D n c) → isna v = false.
Proof.
  intros HD. unfold fill_missing. destruct (isna_any c) eqn:Hany.
  - destruct (D !! n) as [d|]; [|destruct (is_numeric_dtype c)];
      apply fillna_no_missing; auto.
  - by apply isna_any_false.
Qed.

Lemma fill_missing_idem D n c :
  fill_missing D n (fill_missing D n c) = fill_missing D n c.
Proof.
  unfold fill_missing at 2 3.
  destruct (isna_any c) eqn:Hany; [|unfold fill_missing; by rewrite Hany].
  destruct (D !! n) as [d|] eqn:HD.
  - unfold fill_missing. rewrite HD.
    destruct (isna_any (fillna d c)); [apply fillna_fillna|done].
  - destruct (is_numeric_dtype c); unfold fill_missing;
      by rewrite isna_any_fillna.
Qed.

Lemma source_column_present D t n c :
  NoDup (columns t) → (n, c) ∈ cols t → source_column D t n = c.
Proof.
  intros Hnd Hc. unfold source_column, labelled.
  by rewrite (filter_label_unique _ _ _ Hnd Hc).
Qed.

Lemma source_column_absent D t n :
  n ∉ columns t →
  source_column D t n = broadcast (default VNaN (D !! n)) (nrows t).
Proof.
  intros Hn. unfold source_column, labelled. by rewrite filter_label_absent.
Qed.

Lemma selected_own_columns D t :
  NoDup (columns t) →
  (λ n, (n, source_column D t n)) <$> columns t = cols t.
Proof.
  intros Hnd. unfold columns. rewrite <-list_fmap_compose.
  rewrite <-(list_fmap_id (cols t)) at 2. apply fmap_ext_elem.
  intros [n c] Hin. cbn. by rewrite (source_column_present D t n c).
Qed.

Lemma columns_aligned D F t : columns (aligned D F t) = F.
Proof.
  unfold aligned, columns. cbn [cols]. rewrite <-list_fmap_compose.
  apply list_fmap_id.
Qed.

(** An aligned frame is a fixed point of the alignment. *)
Lemma aligned_fixed D t :
  NoDup (columns t) →
  (∀ n c, (n, c) ∈ cols t → fill_missing D n c = c) →
  aligned D (columns t) t = t.
Proof.
  intros Hnd Hfix. unfold aligned. etrans; [|apply frame_eta]. f_equal.
  etrans; [|apply (selected_own_columns D t Hnd)].
  apply fmap_ext_elem. intros n [c Hc]%label_has_column.
  rewrite (source_column_present D t n c Hnd Hc). by rewrite Hfix.
Qed.

Lemma aligned_aligned D F t : aligned D F (aligned D F t) = aligned D F t.
Proof.
  destruct (decide (NoDup F)) as [HF|HF].
  - pose proof (columns_aligned D F t) as Hcols.
    rewrite <-Hcols at 1. apply aligned_fixed; [by rewrite Hcols|].
    intros n c (m & [= -> ->] & _)%list_elem_of_fmap. apply fill_missing_idem.
  - unfold aligned at 1 3. cbn [index]. f_equal.
    apply fmap_ext_elem. intros n Hn. f_equal.
    unfold source_column at 1, labelled, aligned at 1. cbn [cols nrows index].
    assert (∀ G, n ∈ G →
      ∃ rest, filter (λ nc : string * column, nc.1 = n)
                ((λ n0, (n0, fill_missing D n0 (source_column D t n0))) <$> G)
              = (n, fill_missing D n (source_column D t n)) :: rest) as Hhead.
    { induction G as [|m G IH]; [by intros ?%elem_of_nil|].
      intros Hm. rewrite fmap_cons. destruct (decide (m = n)) as [->|Hne].
      - rewrite filter_cons_True by done. eauto.
      - rewrite filter_cons_False by done. apply IH.
        apply elem_of_cons in Hm as [?|?]; [congruence|done]. }
    destruct (Hhead F Hn) as [rest ->]. cbn. apply fill_missing_idem.
Qed.

(** C1, as stated, fails: with the default [NaN] for feature [a] (a value
    [json.load] produces for the literal [NaN]) and an input row without that
    column, the column is created from the default and the fill pass fills it
    from the same default, so the returned table still holds a missing
    value. *)
Lemma prepare_input_dataframe_nan_default_remains :
  ∃ r w' t',
    prepare_input_dataframe 0 ["a"] (Some Ex.meta_nan) (Ex.world_of Ex.empty_row)
      = (Ok r, w')
    ∧ heap w' !! r = Some t'
    ∧ columns t' = ["a"]
    ∧ ¬ no_missing t'.
Proof.
  eexists _, _, _. split_and!; [vm_compute; reflexivity|reflexivity|reflexivity|].
  intros Hnm.
  specialize (Hnm "a" {| dtype_of := Numeric; cells := [VNaN] |} VNaN).
  cbn in Hnm. discriminate Hnm; by left.
Qed.

(** C1 (amended): for a table [t] with distinct column names, a feature list
    [F] without duplicates and metadata [md] with defaults [D], the aligner
    returns a new table with the index of [t] whose columns are exactly [F],
    in [F]'s order.  The column of a name is the input column of that name,
    or, if [t] has none, the default of [D] (else the sentinel) repeated
    along the index; it is then filled by the rule of [fill_missing]: from
    [D]'s default if the column has a missing value and [D] has a default,
    else with [0] (numeric dtype) or the empty string.  If no default of [D]
    is itself a missing value, the returned table has no missing value. *)
Theorem prepare_input_dataframe_aligned df F md t w :
  heap w !! df = Some t → NoDup (columns t) → NoDup F →
  ∃ r w' t',
    prepare_input_dataframe df F md w = (Ok r, w')
    ∧ heap w' !! r = Some t'
    ∧ columns t' = F
    ∧ index t' = index t
    ∧ cols t' =
        (λ n, (n, fill_missing (meta_defaults_of md) n
                    (source_column (meta_defaults_of md) t n))) <$> F
    ∧ (∀ n c, (n, c) ∈ cols t → source_column (meta_defaults_of md) t n = c)
    ∧ (∀ n, n ∉ columns t →
         source_column (meta_defaults_of md) t n
         = broadcast (default VNaN (meta_defaults_of md !! n)) (nrows t))
    ∧ ((∀ n d, n ∈ F → meta_defaults_of md !! n = Some d → isna d = false) →
       no_missing t').
Proof.
  intros Hdf Ht HF. set (D := meta_defaults_of md).
  eexists _, _, (aligned D F t). split_and!.
  - by apply prepare_input_dataframe_run.
  - cbn [heap]. rewrite lookup_app_r, length_insert, Nat.sub_diag; [done|].
    by rewrite length_insert.
  - apply columns_aligned.
  - done.
  - done.
  - intros n c Hc. by apply source_column_present.
  - intros n Hn. by apply source_column_absent.
  - intros HD n c v (m & [= -> ->] & Hm)%list_elem_of_fmap.
    apply fill_missing_no_missing. intros d. by apply HD.
Qed.

(** C1 (amended) at the end-to-end scenario: features [a, b], defaults
    [a: 123, b: "foo"], one empty row. *)
Lemma prepare_input_dataframe_aligned_witness :
  heap (Ex.world_of Ex.empty_row) !! 0%nat = Some Ex.empty_row
  ∧ NoDup (columns Ex.empty_row)
  ∧ NoDup ["a"; "b"]
  ∧ ∃ r w' t',
      prepare_input_dataframe 0 ["a"; "b"] (Some Ex.meta_ab)
        (Ex.world_of Ex.empty_row) = (Ok r, w')
      ∧ heap w' !! r = Some t'
      ∧ columns t' = ["a"; "b"]
      ∧ index t' = index Ex.empty_row
      ∧ cols t' =
          (λ n, (n, fill_missing (meta_defaults_of (Some Ex.meta_ab)) n
                      (source_column (meta_defaults_of (Some Ex.meta_ab))
                         Ex.empty_row n))) <$> ["a"; "b"]
      ∧ (∀ n c, (n, c) ∈ cols Ex.empty_row →
           source_column (meta_defaults_of (Some Ex.meta_ab)) Ex.empty_row n = c)
      ∧ (∀ n, n ∉ columns Ex.empty_row →
           source_column (meta_defaults_of (Some Ex.meta_ab)) Ex.empty_row n
           = broadcast (default VNaN (meta_defaults_of (Some Ex.meta_ab) !! n))
               (nrows Ex.empty_row))
      ∧ ((∀ n d, n ∈ ["a"; "b"] →
            meta_defaults_of (Some Ex.meta_ab) !! n = Some d → isna d = false) →
         no_missing t').
Proof.
  split_and!; [reflexivity|nodup_by_computation|nodup_by_computation|].
  apply (prepare_input_dataframe_aligned 0 ["a"; "b"] (Some Ex.meta_ab)
           Ex.empty_row (Ex.world_of Ex.empty_row));
    [reflexivity|nodup_by_computation|nodup_by_computation].
Defined.

(** The end-to-end scenario of the specification: feature list [a, b],
    defaults [a: 123, b: "foo"], one empty row. *)
Example prepare_input_dataframe_scenario :
  ∃ w', prepare_input_dataframe 0 ["a"; "b"] (Some Ex.meta_ab)
          (Ex.world_of Ex.empty_row) = (Ok 1%nat, w')
        ∧ heap w' !! 1%nat = Some Ex.aligned_ab.
Proof. eexists. split; [vm_compute; reflexivity|reflexivity]. Qed.

(** C9, as stated, fails: the aligner rebinds its local name to a copy
    (line 57), so the restriction, the reordering and the fill never reach
    the caller's object.  After aligning a one-row table with the single
    column [x] to the feature list [a], the caller's table has the columns
    [x, a], and its new column [a] holds the sentinel. *)
Lemma prepare_input_dataframe_caller_not_aligned :
  ∃ r w' t1,
    prepare_input_dataframe 0 ["a"] None (Ex.world_of Ex.extra_column) = (Ok r, w')
    ∧ heap w' !! 0%nat = Some t1
    ∧ columns t1 = ["x"; "a"]
    ∧ columns t1 ≠ ["a"]
    ∧ ¬ no_missing t1.
Proof.
  eexists _, _, _.
  split_and!; [vm_compute; reflexivity|reflexivity|reflexivity|discriminate|].
  intros Hnm.
  specialize (Hnm "a" {| dtype_of := Numeric; cells := [VNaN] |} VNaN).
  cbn in Hnm. discriminate Hnm; [by right; left|by left].
Qed.

(** C9 (amended): the aligner changes the caller's table only by appending,
    after its original columns, one column for each name of [F] that the
    table lacks, in [F]'s order, filled with the default of [D] for that name
    or else with the sentinel.  The original columns keep their place and
    their cells, the index is unchanged, no other object of the store is
    touched, and the aligned table is a different, new object. *)
Theorem prepare_input_dataframe_caller_frame df F md t w :
  heap w !! df = Some t → NoDup (columns t) → NoDup F →
  ∃ r w' t',
    prepare_input_dataframe df F md w = (Ok r, w')
    ∧ r ≠ df
    ∧ heap w !! r = None
    ∧ heap w' !! r = Some t' ∧ columns t' = F
    ∧ heap w' !! df =
        Some {| index := index t;
                cols := cols t ++
                  ((λ n, (n, broadcast (default VNaN (meta_defaults_of md !! n))
                               (nrows t)))
                   <$> filter (λ n, n ∉ columns t) F) |}
    ∧ (∀ r', r' ≠ df → r' ≠ r → heap w' !! r' = heap w !! r').
Proof.
  intros Hdf Ht HF. set (D := meta_defaults_of md).
  pose proof (lookup_lt_Some _ _ _ Hdf) as Hlt.
  eexists _, _, (aligned D F t). split_and!.
  - by apply prepare_input_dataframe_run.
  - lia.
  - by apply lookup_ge_None_2.
  - cbn [heap]. rewrite lookup_app_r, length_insert, Nat.sub_diag; [done|].
    by rewrite length_insert.
  - apply columns_aligned.
  - cbn [heap]. rewrite lookup_app_l by (by rewrite length_insert).
    by rewrite list_lookup_insert_eq.
  - intros r' Hne Hne'. cbn [heap].
    destruct (decide (r' < length (heap w))) as [Hr'|Hr'].
    + rewrite lookup_app_l by (by rewrite length_insert).
      by rewrite list_lookup_insert_ne.
    + rewrite lookup_ge_None_2; [|rewrite length_app, length_insert; cbn; lia].
      symmetry. apply lookup_ge_None_2. lia.
Qed.

(** C9 (amended) at a one-row table with the column [x] and the features
    [a, x]. *)
Lemma prepare_input_dataframe_caller_frame_witness :
  heap (Ex.world_of Ex.extra_column) !! 0%nat = Some Ex.extra_column
  ∧ NoDup (columns Ex.extra_column)
  ∧ NoDup ["a"; "x"]
  ∧ ∃ r w' t',
      prepare_input_dataframe 0 ["a"; "x"] (Some Ex.meta_ab)
        (Ex.world_of Ex.extra_column) = (Ok r, w')
      ∧ r ≠ 0%nat
      ∧ heap (Ex.world_of Ex.extra_column) !! r = None
      ∧ heap w' !! r = Some t' ∧ columns t' = ["a"; "x"]
      ∧ heap w' !! 0%nat =
          Some {| index := index Ex.extra_column;
                  cols := cols Ex.extra_column ++
                    ((λ n, (n, broadcast
                                 (default VNaN
                                    (meta_defaults_of (Some Ex.meta_ab) !! n))
                                 (nrows Ex.extra_column)))
                     <$> filter (λ n, n ∉ columns Ex.extra_column) ["a"; "x"]) |}
      ∧ (∀ r', r' ≠ 0%nat → r' ≠ r →
           heap w' !! r' = heap (Ex.world_of Ex.extra_column) !! r').
Proof.
  split_and!; [reflexivity|nodup_by_computation|nodup_by_computation|].
  apply (prepare_input_dataframe_caller_frame 0 ["a"; "x"] (Some Ex.meta_ab)
           Ex.extra_column (Ex.world_of Ex.extra_column));
    [reflexivity|nodup_by_computation|nodup_by_computation].
Defined.

(** C10: alignment is idempotent.  A table whose columns already are [F] and
    which has no missing value is returned value-equal; and aligning the
    result of an alignment returns a table equal to that result, for every
    table with distinct column names. *)
Theorem prepare_input_dataframe_idempotent df F md t w :
  heap w !! df = Some t → NoDup (columns t) → NoDup F →
  (columns t = F → no_missing t →
   ∃ r w', prepare_input_dataframe df F md w = (Ok r, w')
           ∧ heap w' !! r = Some t)
  ∧ ∃ r1 w1 t1 r2 w2,
      prepare_input_dataframe df F md w = (Ok r1, w1)
      ∧ heap w1 !! r1 = Some t1
      ∧ prepare_input_dataframe r1 F md w1 = (Ok r2, w2)
      ∧ heap w2 !! r2 = Some t1.
Proof.
  intros Hdf Ht HF. set (D := meta_defaults_of md).
  pose proof (prepare_input_dataframe_run df F md t w Hdf Ht HF) as Hrun.
  fold D in Hrun.
  set (w1 := {| heap := <[df := with_missing D F t]> (heap w) ++ [aligned D F t];
                log := log w |}) in *.
  assert (heap w1 !! length (heap w) = Some (aligned D F t)) as Hr1.
  { cbn [w1 heap]. rewrite lookup_app_r, length_insert, Nat.sub_diag; [done|].
    by rewrite length_insert. }
  split.
  - intros Hcols Hnm. exists (length (heap w)), w1. split; [exact Hrun|].
    rewrite Hr1. f_equal. rewrite <-Hcols. apply aligned_fixed; [done|].
    intros n c Hc. unfold fill_missing.
    destruct (isna_any c) eqn:Hany; [|done].
    apply existsb_exists in Hany as (v & Hv%list_elem_of_In & Hna).
    by rewrite (Hnm n c v Hc Hv) in Hna.
  - exists (length (heap w)), w1, (aligned D F t).
    eexists _, _. split_and!; [exact Hrun|exact Hr1| |].
    + apply (prepare_input_dataframe_run _ F md (aligned D F t) w1 Hr1);
        [by rewrite columns_aligned|done].
    + cbn [heap]. rewrite lookup_app_r, length_insert, Nat.sub_diag;
        [|by rewrite length_insert].
      cbn. f_equal. apply aligned_aligned.
Qed.

(** C10 at the aligned table of the end-to-end scenario. *)
Lemma prepare_input_dataframe_idempotent_witness :
  heap (Ex.world_of Ex.aligned_ab) !! 0%nat = Some Ex.aligned_ab
  ∧ NoDup (columns Ex.aligned_ab)
  ∧ NoDup ["a"; "b"]
  ∧ (columns Ex.aligned_ab = ["a"; "b"] → no_missing Ex.aligned_ab →
     ∃ r w', prepare_input_dataframe 0 ["a"; "b"] (Some Ex.meta_ab)
               (Ex.world_of Ex.aligned_ab) = (Ok r, w')
             ∧ heap w' !! r = Some Ex.aligned_ab)
  ∧ ∃ r1 w1 t1 r2 w2,
      prepare_input_dataframe 0 ["a"; "b"] (Some Ex.meta_ab)
        (Ex.world_of Ex.aligned_ab) = (Ok r1, w1)
      ∧ heap w1 !! r1 = Some t1
      ∧ prepare_input_dataframe r1 ["a"; "b"] (Some Ex.meta_ab) w1 = (Ok r2, w2)
      ∧ heap w2 !! r2 = Some t1.
Proof.
  split_and!; [reflexivity|nodup_by_computation|nodup_by_computation| |];
    apply (prepare_input_dataframe_idempotent 0 ["a"; "b"] (Some Ex.meta_ab)
             Ex.aligned_ab (Ex.world_of Ex.aligned_ab));
    (reflexivity || nodup_by_computation).
Defined.

(** ** Properties of the loader and of the two adapters *)

Lemma prefix_append s b : String.prefix s (s +:+ b) = true.
Proof.
  induction s as [|a s IH]; [by destruct b|].
  change (String.prefix (String a s) (String a (s +:+ b)) = true).
  cbn [String.prefix]. destruct (Ascii.ascii_dec a a); [exact IH|congruence].
Qed.

Lemma contains_unfold needle hay :
  contains needle hay =
  String.prefix needle hay ||
  match hay with
  | EmptyString => false
  | String _ hay' => contains needle hay'
  end.
Proof. by destruct hay. Qed.

Lemma contains_prefix s b : contains s (s +:+ b) = true.
Proof. by rewrite contains_unfold, prefix_append. Qed.

Lemma contains_append_l a s hay :
  contains s hay = true → contains s (a +:+ hay) = true.
Proof.
  intros H. induction a as [|c a IH]; [exact H|].
  change (contains s (String c (a +:+ hay)) = true).
  cbn [contains]. rewrite IH. apply orb_true_r.
Qed.

Lemma append_empty_r s : s +:+ "" = s.
Proof.
  induction s as [|c s IH]; [done|].
  change (String c (s +:+ "") = String c s). by rewrite IH.
Qed.

Lemma contains_refl s : contains s s = true.
Proof. rewrite <-(append_empty_r s) at 2. apply contains_prefix. Qed.

(** C2, as stated, fails: the joblib failure is dropped by
    [except Exception: pass], and the message of the final error quotes the
    pickle failure alone. *)
Lemma load_pickle_or_joblib_drops_joblib_cause :
  ∃ msg w',
    path_exists Ex.env_corrupt "model.pkl" = true
    ∧ joblib_load Ex.env_corrupt "model.pkl" = inl "bad magic number"
    ∧ pickle_load Ex.env_corrupt "model.pkl" = inl "invalid load key"
    ∧ load_pickle_or_joblib Ex.env_corrupt "model.pkl" Ex.empty_world
      = (Raise (RuntimeError msg), w')
    ∧ contains "invalid load key" msg = true
    ∧ contains "bad magic number" msg = false.
Proof.
  eexists _, _. split_and!; reflexivity.
Qed.

(** C2 (amended): for a path whose file exists, the loader raises only after
    the joblib attempt and then the pickle attempt have both failed; the
    error is a [RuntimeError] whose message is
    ["Failed to load <path> with joblib or pickle: "] followed by the pickle
    failure, which it therefore contains; the joblib failure is not part of
    it. *)
Theorem load_pickle_or_joblib_failure env path w :
  path_exists env path = true →
  (∀ ej ep,
     joblib_load env path = inl ej → pickle_load env path = inl ep →
     load_pickle_or_joblib env path w =
       (Raise (RuntimeError
          ("Failed to load " +:+ path +:+ " with joblib or pickle: " +:+ ep)),
        {| heap := heap w;
           log := log w ++ [EvJoblibLoad path; EvPickleLoad path] |})
     ∧ contains ep
         ("Failed to load " +:+ path +:+ " with joblib or pickle: " +:+ ep) = true)
  ∧ (∀ e w',
       load_pickle_or_joblib env path w = (Raise e, w') →
       ∃ ej ep, joblib_load env path = inl ej ∧ pickle_load env path = inl ep
                ∧ log w' = log w ++ [EvJoblibLoad path; EvPickleLoad path]).
Proof.
  intros Hex. unfold load_pickle_or_joblib. rewrite Hex. cbn [negb].
  unfold bind, try_except, external, ret, raise. split.
  - intros ej ep -> ->. cbn. rewrite <-app_assoc. split; [done|].
    do 3 apply contains_append_l. apply contains_refl.
  - intros e w'. destruct (joblib_load env path) as [ej|o]; cbn; [|done].
    destruct (pickle_load env path) as [ep|o]; cbn; [|done].
    intros [= <- <-]. exists ej, ep. cbn. by rewrite <-app_assoc.
Qed.

(** C2 (amended) at a file that neither format can read. *)
Lemma load_pickle_or_joblib_failure_witness :
  path_exists Ex.env_corrupt "model.pkl" = true
  ∧ (∀ ej ep,
       joblib_load Ex.env_corrupt "model.pkl" = inl ej →
       pickle_load Ex.env_corrupt "model.pkl" = inl ep →
       load_pickle_or_joblib Ex.env_corrupt "model.pkl" Ex.empty_world =
         (Raise (RuntimeError
            ("Failed to load " +:+ "model.pkl" +:+ " with joblib or pickle: "
             +:+ ep)),
          {| heap := heap Ex.empty_world;
             log := log Ex.empty_world
                    ++ [EvJoblibLoad "model.pkl"; EvPickleLoad "model.pkl"] |})
       ∧ contains ep
           ("Failed to load " +:+ "model.pkl" +:+ " with joblib or pickle: "
            +:+ ep) = true)
  ∧ (∀ e w',
       load_pickle_or_joblib Ex.env_corrupt "model.pkl" Ex.empty_world
       = (Raise e, w') →
       ∃ ej ep, joblib_load Ex.env_corrupt "model.pkl" = inl ej
                ∧ pickle_load Ex.env_corrupt "model.pkl" = inl ep
                ∧ log w' = log Ex.empty_world
                           ++ [EvJoblibLoad "model.pkl"; EvPickleLoad "model.pkl"]).
Proof.
  split; [reflexivity|].
  apply (load_pickle_or_joblib_failure Ex.env_corrupt "model.pkl" Ex.empty_world).
  reflexivity.
Defined.

(** C6: the preprocessing adapter calls [transform] on the frame as it is and
    returns its result; if that call fails it calls [transform] once more, on
    the bare value matrix, and returns that result; it raises only when both
    calls have failed, and the message of the error it raises then contains
    both failure texts. *)
Theorem apply_preprocessor_fallback pre tr df t w :
  attr_transform pre = Some tr → heap w !! df = Some t →
  (∀ r, tr (TFrame t) = inr r →
     apply_preprocessor pre df w =
       (Ok r, {| heap := heap w; log := log w ++ [EvTransform (TFrame t)] |}))
  ∧ (∀ e r, tr (TFrame t) = inl e → tr (TValues (df_values t)) = inr r →
       apply_preprocessor pre df w =
         (Ok r, {| heap := heap w;
                   log := log w ++ [EvTransform (TFrame t);
                                    EvTransform (TValues (df_values t))] |}))
  ∧ (∀ e e2, tr (TFrame t) = inl e → tr (TValues (df_values t)) = inl e2 →
       ∃ msg,
         apply_preprocessor pre df w =
           (Raise (RuntimeError msg),
            {| heap := heap w;
               log := log w ++ [EvTransform (TFrame t);
                                EvTransform (TValues (df_values t))] |})
         ∧ msg = "Preprocessor.transform failed: " +:+ e
                 +:+ "; fallback failed: " +:+ e2
         ∧ contains e msg = true ∧ contains e2 msg = true)
  ∧ (∀ x w', apply_preprocessor pre df w = (Raise x, w') →
       ∃ e e2, tr (TFrame t) = inl e ∧ tr (TValues (df_values t)) = inl e2).
Proof.
  intros Htr Hdf. unfold apply_preprocessor, call_method. rewrite Htr.
  unfold try_except, bind, external, raise.
  rewrite (deref_ok _ _ _ Hdf).
  assert (∀ ev, deref df {| heap := heap w; log := log w ++ [ev] |}
                = (Ok t, {| heap := heap w; log := log w ++ [ev] |})) as Hdf'.
  { intros ev. by apply deref_ok. }
  split_and!.
  - by intros r ->.
  - intros e r -> Hv. rewrite Hdf', Hv. cbn. by rewrite <-app_assoc.
  - intros e e2 -> Hv. rewrite Hdf', Hv. cbn. rewrite <-app_assoc.
    eexists. split_and!; [done|done| |].
    + apply contains_append_l, contains_prefix.
    + do 3 apply contains_append_l. apply contains_refl.
  - intros x w'. destruct (tr (TFrame t)) as [e|r]; [|done].
    rewrite Hdf'. destruct (tr (TValues (df_values t))) as [e2|r]; [|done].
    intros _. by exists e, e2.
Qed.

(** C6 at a preprocessor that refuses frames and accepts matrices. *)
Lemma apply_preprocessor_fallback_witness :
  let tr := Ex.matrix_only_transform in
  let w := Ex.world_of Ex.aligned_ab in
  let t := Ex.aligned_ab in
  attr_transform Ex.matrix_only = Some tr
  ∧ heap w !! 0%nat = Some t
  ∧ (∀ r, tr (TFrame t) = inr r →
       apply_preprocessor Ex.matrix_only 0 w =
         (Ok r, {| heap := heap w; log := log w ++ [EvTransform (TFrame t)] |}))
  ∧ (∀ e r, tr (TFrame t) = inl e → tr (TValues (df_values t)) = inr r →
       apply_preprocessor Ex.matrix_only 0 w =
         (Ok r, {| heap := heap w;
                   log := log w ++ [EvTransform (TFrame t);
                                    EvTransform (TValues (df_values t))] |}))
  ∧ (∀ e e2, tr (TFrame t) = inl e → tr (TValues (df_values t)) = inl e2 →
       ∃ msg,
         apply_preprocessor Ex.matrix_only 0 w =
           (Raise (RuntimeError msg),
            {| heap := heap w;
               log := log w ++ [EvTransform (TFrame t);
                                EvTransform (TValues (df_values t))] |})
         ∧ msg = "Preprocessor.transform failed: " +:+ e
                 +:+ "; fallback failed: " +:+ e2
         ∧ contains e msg = true ∧ contains e2 msg = true)
  ∧ (∀ x w', apply_preprocessor Ex.matrix_only 0 w = (Raise x, w') →
       ∃ e e2, tr (TFrame t) = inl e ∧ tr (TValues (df_values t)) = inl e2).
Proof.
  cbv zeta. split; [reflexivity|]. split; [reflexivity|].
  apply (apply_preprocessor_fallback Ex.matrix_only Ex.matrix_only_transform
           0 Ex.aligned_ab (Ex.world_of Ex.aligned_ab)); reflexivity.
Defined.

(** The fallback at work: a preprocessor that refuses frames receives the
    value matrix of the aligned frame. *)
Example apply_preprocessor_matrix_only :
  ∃ w', apply_preprocessor Ex.matrix_only 0 (Ex.world_of Ex.aligned_ab)
        = (Ok {| shape := [1; 2]%nat; data := [VNum 123; VStr "foo"] |}, w')
        ∧ length (log w') = 2%nat.
Proof. eexists. split; [vm_compute; reflexivity|reflexivity]. Qed.

(** C3: the inference adapter looks for the probability operation first.  A
    model that has it gets both operations called, the probability one first,
    and the pair (labels, probability matrix) returned, whether or not the
    label-only branch would apply as well.  A model with the label operation
    only gets that operation called and the labels returned with no
    probabilities.  The raw-booster branch comes after these two: a booster,
    which has a label operation, is served exactly like a label-only
    estimator with that operation. *)
Theorem predict_with_model_dispatch model X w :
  (∀ pp p P L,
     attr_predict_proba model = Some pp → attr_predict model = Some p →
     pp (PRaw X) = inr P → p (PRaw X) = inr L →
     predict_with_model model X w =
       (Ok (L, Some P),
        {| heap := heap w;
           log := log w ++ [EvPredictProba (PRaw X); EvPredict (PRaw X)] |}))
  ∧ (∀ p L,
       attr_predict_proba model = None → attr_predict model = Some p →
       p (PRaw X) = inr L →
       predict_with_model model X w =
         (Ok (L, None),
          {| heap := heap w; log := log w ++ [EvPredict (PRaw X)] |}))
  ∧ (∀ p tr,
       predict_with_model (Booster p) X w =
       predict_with_model (PyObject None (Some p) tr) X w).
Proof.
  split_and!.
  - intros pp p P L Hpp Hp HP HL. unfold predict_with_model, call_method.
    rewrite Hpp, Hp. cbn [hasattr]. unfold bind, external, ret.
    rewrite HP. cbn [heap log]. rewrite HL. by rewrite <-app_assoc.
  - intros p L Hpp Hp HL. unfold predict_with_model, call_method.
    rewrite Hpp, Hp. cbn [hasattr]. unfold bind, external, ret. by rewrite HL.
  - done.
Qed.

(** The sketch of the dispatch on a classifier with both operations. *)
Example predict_with_model_classifier :
  predict_with_model Ex.classifier Ex.X22 Ex.empty_world =
    (Ok (Ex.labels2, Some Ex.expected_proba),
     {| heap := []; log := [EvPredictProba (PRaw Ex.X22); EvPredict (PRaw Ex.X22)] |}).
Proof. reflexivity. Qed.

(** A booster never reaches the branch written for it: [hasattr(model,
    "predict")] holds for it, so the label-only branch hands the unwrapped
    input to its [predict].  No probability matrix is ever returned. *)
Lemma predict_with_model_booster_shadowed p X w :
  predict_with_model (Booster p) X w =
    (match p (PRaw X) with
     | inr L => Ok (L, None)
     | inl msg => Raise (LibraryError msg)
     end,
     {| heap := heap w; log := log w ++ [EvPredict (PRaw X)] |}).
Proof.
  unfold predict_with_model, call_method. cbn [attr_predict_proba attr_predict hasattr].
  unfold bind, external, ret. by destruct (p (PRaw X)).
Qed.

(** What lines 109-115 compute from the raw predictions [0.2, 0.7] once they
    are reached: the matrix [[0.8, 0.2], [0.3, 0.7]] and the labels
    [0, 1]. *)
Example binary_expansion_of_raw_predictions :
  ∃ q st,
    np_one_minus Ex.raw_binary = Ok q
    ∧ np_vstack2 q Ex.raw_binary = Ok st
    ∧ np_T st = Ex.expected_proba
    ∧ np_argmax_axis1 (np_T st) = Ok Ex.expected_labels.
Proof. eexists _, _. split_and!; reflexivity. Qed.

(** C4 (code defect): for the booster whose raw prediction is [0.2, 0.7] the
    adapter does not return the labels [0, 1] with the matrix
    [[0.8, 0.2], [0.3, 0.7]]; it calls [predict] on the unwrapped input, and
    the library's refusal of that input is what the caller gets. *)
Theorem predict_with_model_booster_defect :
  predict_with_model Ex.booster Ex.X22 Ex.empty_world =
    (Raise (LibraryError "Expecting data to be a DMatrix object"),
     {| heap := []; log := [EvPredict (PRaw Ex.X22)] |})
  ∧ predict_with_model Ex.booster Ex.X22 Ex.empty_world ≠
    (Ok (Ex.expected_labels, Some Ex.expected_proba),
     {| heap := []; log := [EvPredict (PDMatrix Ex.X22)] |})
  ∧ ∀ p X w L P, (predict_with_model (Booster p) X w).1 ≠ Ok (L, Some P).
Proof.
  split_and!; [reflexivity|discriminate|].
  intros p X w L P. rewrite predict_with_model_booster_shadowed. cbn.
  by destruct (p (PRaw X)).
Qed.

(** C5: the adapter raises the "no supported interface" error exactly for the
    models to which none of the three branches applies: no probability
    operation, no label operation, and not a booster. *)
Theorem predict_with_model_no_interface model X w :
  (∃ w', predict_with_model model X w
         = (Raise (RuntimeError no_interface_msg), w'))
  ↔ attr_predict_proba model = None
    ∧ attr_predict model = None
    ∧ isinstance_Booster model = false.
Proof.
  unfold predict_with_model, call_method. split.
  - intros [w' H]. destruct model as [[pp|] [p|] tr|p]; cbn in H.
    + unfold bind, external, ret in H.
      destruct (pp (PRaw X)); [done|]. cbn in H. by destruct (p (PRaw X)).
    + unfold bind, external, raise in H. by destruct (pp (PRaw X)).
    + unfold bind, external, ret in H. by destruct (p (PRaw X)).
    + done.
    + unfold bind, external, ret in H. by destruct (p (PRaw X)).
  - intros (Hpp & Hp & Hb). rewrite Hpp, Hp, Hb. cbn. by exists w.
Qed.

(** ** The result assembler in closed form *)

Lemma fmap_lookup_seq {A} (d : A) (l : list A) :
  (λ i, default d (l !! i)) <$> seq 0 (length l) = l.
Proof.
  apply list_eq. intros i. rewrite list_lookup_fmap.
  destruct (decide (i < length l)) as [Hi|Hi].
  - rewrite lookup_seq_lt by done. cbn.
    destruct (lookup_lt_is_Some_2 l i Hi) as [x Hx]. by rewrite Hx.
  - rewrite lookup_seq_ge by lia. cbn. symmetry. apply lookup_ge_None_2. lia.
Qed.

Lemma np_list_1d a n :
  shape a = [n] →
  np_list a = Ok ((λ i, default VNaN (data a !! i)) <$> seq 0 n).
Proof. intros H. unfold np_list. by rewrite H. Qed.

Lemma np_list_rows a n k rest :
  shape a = n :: k :: rest →
  np_list a =
    Ok ((λ i, VArr (k :: rest)
                (take (size_of (k :: rest))
                   (drop (i * size_of (k :: rest)) (data a)))) <$> seq 0 n).
Proof. intros H. unfold np_list. by rewrite H. Qed.

Lemma np_list_length a n rest l :
  shape a = n :: rest → np_list a = Ok l → length l = n.
Proof.
  intros H. unfold np_list. rewrite H. intros [= <-].
  by rewrite length_fmap, length_seq.
Qed.

Lemma np_list_ok a n rest :
  shape a = n :: rest → np_list a = Ok (np_items a).
Proof. intros H. unfold np_items, np_list. by rewrite H. Qed.

Lemma shape_np_column i p n k : shape p = [n; k] → shape (np_column i p) = [n].
Proof. intros H. unfold np_column. by rewrite H. Qed.

Lemma length_data_np_column i p n k :
  shape p = [n; k] → length (data (np_column i p)) = n.
Proof.
  intros H. unfold np_column. rewrite H. cbn.
  by rewrite length_fmap, length_seq.
Qed.

Lemma np_items_np_column i p n k :
  shape p = [n; k] → np_items (np_column i p) = data (np_column i p).
Proof.
  intros H. unfold np_items.
  rewrite (np_list_1d _ n) by (by eapply shape_np_column).
  rewrite <-(length_data_np_column i p n k H) at 1. apply fmap_lookup_seq.
Qed.

Lemma setitem_values_ok col vals df :
  length vals = nrows df →
  setitem_values col vals df = Ok (set_column col (column_of_values vals) df).
Proof.
  intros H. unfold setitem_values.
  assert (Nat.eqb (nrows df) 0 && negb (Nat.eqb (length vals) 0) = false) as ->.
  { rewrite H. by destruct (Nat.eqb (nrows df) 0). }
  cbv zeta. by rewrite H, Nat.eqb_refl.
Qed.

Lemma setitem_array_1d col a df :
  shape a = [nrows df] →
  setitem_array col a df =
    Ok (set_column col (column_of_values (np_items a)) df).
Proof.
  intros H. unfold setitem_array. rewrite H.
  rewrite (np_list_ok a _ _ H). apply setitem_values_ok.
  by eapply np_list_length; [|eapply np_list_ok].
Qed.

Lemma class_name_fresh (i : nat) : "proba_class_" +:+ pretty i ≠ "prediction".
Proof. discriminate. Qed.

Lemma class_name_inj (i j : nat) :
  "proba_class_" +:+ pretty i = "proba_class_" +:+ pretty j → i = j.
Proof. intros H%(inj (String.app _)). by apply (inj pretty). Qed.

Lemma fold_class_columns p n k w : shape p = [n; k] → ∀ l out,
  NoDup l → nrows out = n →
  (∀ i, i ∈ l → "proba_class_" +:+ pretty i ∉ columns out) →
  fold_each l out (λ out i,
    lift (setitem_array ("proba_class_" +:+ pretty i) (np_column i p) out)) w
  = (Ok {| index := index out; cols := cols out ++ (class_column p <$> l) |}, w).
Proof.
  intros Hp. induction l as [|i l IH]; intros out Hnd Hrows Hfresh.
  - cbn. unfold ret. by rewrite app_nil_r, frame_eta.
  - apply NoDup_cons in Hnd as [Hi Hnd]. cbn [fold_each].
    unfold bind at 1. unfold lift at 1.
    rewrite setitem_array_1d
      by (rewrite Hrows; by eapply shape_np_column).
    rewrite (np_items_np_column i p n k Hp).
    rewrite set_column_new by (apply Hfresh; by left).
    rewrite IH; [|done|done|].
    + cbn [index cols]. by rewrite <-app_assoc.
    + intros j Hj. unfold columns. cbn [cols]. rewrite fmap_app.
      intros [Hin|Hin%list_elem_of_singleton]%elem_of_app.
      * revert Hin. apply Hfresh. by right.
      * apply class_name_inj in Hin. by subst.
Qed.

Lemma build_output_prediction idx preds :
  shape preds = [length idx] →
  setitem_array "prediction" preds {| index := idx; cols := [] |} =
    Ok {| index := idx;
          cols := [("prediction", column_of_values (np_items preds))] |}.
Proof. intros H. by rewrite setitem_array_1d. Qed.

Lemma build_output_none idx preds w :
  shape preds = [length idx] →
  build_output idx preds None w =
    (Ok {| index := idx;
           cols := [("prediction", column_of_values (np_items preds))] |}, w).
Proof.
  intros H. unfold build_output, bind, lift.
  by rewrite build_output_prediction.
Qed.

Lemma build_output_classes idx preds p k w :
  shape preds = [length idx] → shape p = [length idx; k] → k ≤ 10 →
  build_output idx preds (Some p) w =
    (Ok {| index := idx;
           cols := ("prediction", column_of_values (np_items preds))
                   :: (class_column p <$> seq 0 k) |}, w).
Proof.
  intros H Hp Hk. unfold build_output. unfold bind at 1. unfold lift at 1.
  rewrite build_output_prediction by done.
  unfold ndim. rewrite Hp. cbn [length nth Nat.eqb andb].
  rewrite (leb_correct k 10 Hk).
  rewrite (fold_class_columns p (length idx) k w Hp); [done|apply NoDup_seq|done|].
  intros i _. cbn. rewrite list_elem_of_singleton. apply class_name_fresh.
Qed.

Lemma build_output_single idx preds p n rest w :
  shape preds = [length idx] → shape p = n :: rest → n = length idx →
  (∀ k, rest = [k] → 10 < k) →
  build_output idx preds (Some p) w =
    (Ok {| index := idx;
           cols := [("prediction", column_of_values (np_items preds));
                    ("proba", column_of_values (np_items p))] |}, w).
Proof.
  intros H Hp -> Hrest. unfold build_output. unfold bind at 1. unfold lift at 1.
  rewrite build_output_prediction by done.
  assert (Nat.eqb (ndim p) 2 && Nat.leb (nth 1 (shape p) 0%nat) 10 = false) as ->.
  { unfold ndim. rewrite Hp. destruct rest as [|k [|??]]; [done| |done].
    cbn. apply leb_correct_conv. by apply Hrest. }
  unfold bind, lift. rewrite (np_list_ok p _ _ Hp).
  rewrite setitem_values_ok
    by (by eapply np_list_length; [|eapply np_list_ok]).
  by rewrite set_column_new
    by (cbn; rewrite list_elem_of_singleton; discriminate).
Qed.

Lemma set_column_keeps col c df :
  length (cells c) = nrows df → keeps df (set_column col c df) col.
Proof.
  intros Hlen. unfold keeps, set_column, has_column.
  case_bool_decide as Hin; unfold columns, wf_frame, nrows; cbn [cols index].
  - split_and!; [| | |done].
    + apply list_elem_of_fmap in Hin as ([n d] & -> & Hin).
      apply list_elem_of_fmap. exists (n, c). split; [done|].
      apply list_elem_of_fmap. exists (n, d). cbn. by rewrite String.eqb_refl.
    + intros n ([m d] & -> & Hm)%list_elem_of_fmap.
      apply list_elem_of_fmap.
      exists (if String.eqb m col then (m, c) else (m, d)).
      split; [by destruct (String.eqb m col)|].
      apply list_elem_of_fmap. by exists (m, d).
    + intros Hwf n d ([m e] & Heq & Hm)%list_elem_of_fmap. cbn in Heq.
      destruct (String.eqb m col); inversion Heq; subst; [done|].
      by apply (Hwf m).
  - split_and!; [| | |done].
    + rewrite fmap_app. apply elem_of_app. right. by left.
    + intros n Hn. rewrite fmap_app. apply elem_of_app. by left.
    + intros Hwf n d [Hd|Hd%list_elem_of_singleton]%elem_of_app.
      * by apply (Hwf n).
      * by inversion Hd; subst.
Qed.

Lemma length_range_index n : length (range_index n) = n.
Proof. unfold range_index. by rewrite length_fmap, length_seq. Qed.

Lemma setitem_values_keeps col vals df df' :
  setitem_values col vals df = Ok df' → keeps df df' col.
Proof.
  unfold setitem_values.
  destruct (Nat.eqb (nrows df) 0 && negb (Nat.eqb (length vals) 0)) eqn:Hq;
    cbv zeta.
  - apply andb_true_iff in Hq as [Hz%Nat.eqb_eq _].
    set (df1 := {| index := range_index (length vals); cols := _ |}).
    destruct (Nat.eqb_spec (length vals) (nrows df1)) as [Hlen|]; [|done].
    intros [= <-].
    destruct (set_column_keeps col (column_of_values vals) df1 Hlen)
      as (K1 & K2 & K3 & K4).
    split_and!; [done| | |].
    + intros n Hn. apply K2. unfold df1, columns. cbn [cols].
      rewrite <-list_fmap_compose. exact Hn.
    + intros _. apply K3. intros n c ([m d] & [= -> ->] & _)%list_elem_of_fmap.
      cbn. by rewrite length_replicate, length_range_index.
    + intros Hne. unfold nrows in Hz. destruct (index df); [done|discriminate Hz].
  - destruct (Nat.eqb_spec (length vals) (nrows df)) as [Hlen|]; [|done].
    intros [= <-]. by apply set_column_keeps.
Qed.

Lemma setitem_array_keeps col a df df' :
  setitem_array col a df = Ok df' → keeps df df' col.
Proof.
  unfold setitem_array. destruct (shape a) as [|n [|k [|??]]] eqn:Hs.
  - intros [= <-]. apply set_column_keeps. apply length_replicate.
  - destruct (np_list a); [apply setitem_values_keeps|done].
  - destruct k as [|[|?]]; [done| |done].
    destruct (Nat.eqb (nrows df) 0 && negb (Nat.eqb n 0)); [done|].
    apply setitem_values_keeps.
  - by destruct k as [|[|?]].
Qed.

Lemma out_inv_step idx out out' col :
  out_inv idx out → keeps out out' col → out_inv idx out'.
Proof.
  intros (I1 & I2 & I3) (K1 & K2 & K3 & K4). split_and!; [auto..|].
  intros Hne. rewrite K4; [auto|]. by rewrite I3.
Qed.

Lemma fold_each_out_inv idx (p : ndarray) l : ∀ out w out' w',
  out_inv idx out →
  fold_each l out (λ out i,
    lift (setitem_array ("proba_class_" +:+ pretty i) (np_column i p) out)) w
  = (Ok out', w') →
  out_inv idx out'.
Proof.
  induction l as [|i l IH]; intros out w out' w' Hinv; cbn [fold_each].
  - by intros [= <- _].
  - unfold bind at 1. unfold lift at 1.
    destruct (setitem_array _ _ out) as [out1|e] eqn:Hset; [|done].
    apply IH. eapply out_inv_step; [done|]. by eapply setitem_array_keeps.
Qed.

Lemma build_output_inv idx preds proba w out w' :
  build_output idx preds proba w = (Ok out, w') → out_inv idx out.
Proof.
  unfold build_output. unfold bind at 1. unfold lift at 1.
  destruct (setitem_array "prediction" preds _) as [out1|e] eqn:Hset; [|done].
  apply setitem_array_keeps in Hset as Hk.
  assert (out_inv idx out1) as Hinv.
  { destruct Hk as (K1 & K2 & K3 & K4). split_and!; [done| |exact K4].
    apply K3. by intros n c ?%elem_of_nil. }
  destruct proba as [p|]; [|by intros [= <- _]].
  destruct (Nat.eqb (ndim p) 2 && Nat.leb (nth 1 (shape p) 0%nat) 10).
  - by apply fold_each_out_inv.
  - unfold bind, lift. destruct (np_list p) as [items|]; [|done].
    destruct (setitem_values "proba" items out1) as [out2|] eqn:Hset2; [|done].
    intros [= <- _]. eapply out_inv_step; [done|].
    by eapply setitem_values_keeps.
Qed.

(** ** Properties of the result assembler and of the pipeline *)

Lemma bind_inv {A B} (m : M A) (k : A → M B) w b w' :
  bind m k w = (Ok b, w') → ∃ a w1, m w = (Ok a, w1) ∧ k a w1 = (Ok b, w').
Proof.
  unfold bind. destruct (m w) as [[a|e] w1]; [|done]. intros H. by exists a, w1.
Qed.

(** A successful run read a table, built its result table from the index of
    that table, wrote that result table when a path was given, and returned
    the preview assembled from it. *)
Lemma run_predictions_result_table env mp fp pp meta input output k w sample w' :
  run_predictions env mp fp pp meta input output k w = (Ok sample, w') →
  ∃ t out cur,
    read_csv env input = inr t
    ∧ out_inv (index t) out
    ∧ sample = concat_axis1 (reset_index (loc_upto (k - 1) cur)) (reset_index out)
    ∧ (∀ p, given_path output = Some p →
         ∃ evs, log w' = evs ++ [EvToCsv p out]).
Proof.
  unfold run_predictions. intros Hrun.
  apply bind_inv in Hrun as (model & w1 & _ & Hrun).
  apply bind_inv in Hrun as (F & w2 & _ & Hrun).
  apply bind_inv in Hrun as (pre & w3 & _ & Hrun).
  apply bind_inv in Hrun as (md & w4 & _ & Hrun).
  apply bind_inv in Hrun as (t & w5 & Hcsv & Hrun).
  apply bind_inv in Hrun as (df & w6 & _ & Hrun).
  apply bind_inv in Hrun as (dfp & w7 & _ & Hrun).
  apply bind_inv in Hrun as (X & w8 & _ & Hrun).
  apply bind_inv in Hrun as (res & w9 & _ & Hrun).
  apply bind_inv in Hrun as (out & w10 & Hout & Hrun).
  apply bind_inv in Hrun as (cur & w11 & _ & Hrun).
  apply bind_inv in Hrun as ([] & w12 & Hwrite & Hrun).
  unfold ret in Hrun. injection Hrun as <- <-.
  exists t, out, cur. split_and!.
  - unfold external in Hcsv. destruct (read_csv env input) as [?|t0]; [done|].
    by injection Hcsv as -> _.
  - by eapply build_output_inv.
  - done.
  - intros p Hp. rewrite Hp in Hwrite. unfold to_csv in Hwrite.
    injection Hwrite as <-. by exists (log w11).
Qed.

(** C7: the result table always has a [prediction] column.  With one label
    per row: without probabilities that is its only column; a probability
    matrix with one row per table row and at most 10 columns adds the columns
    [proba_class_0 .. proba_class_(k-1)], column [i] holding [proba[:, i]];
    a matrix with more than 10 columns, or an array that is not
    two-dimensional, adds the single column [proba] whose entry for a row is
    that row's item of the array, a [k]-element vector in the case of a
    matrix. *)
Theorem build_output_layout idx preds proba w :
  (∀ out w', build_output idx preds proba w = (Ok out, w') →
     "prediction" ∈ columns out)
  ∧ (shape preds = [length idx] →
     (proba = None →
        build_output idx preds proba w =
          (Ok {| index := idx;
                 cols := [("prediction", column_of_values (np_items preds))] |}, w))
     ∧ (∀ p k, proba = Some p → shape p = [length idx; k] → k ≤ 10 →
          build_output idx preds proba w =
            (Ok {| index := idx;
                   cols := ("prediction", column_of_values (np_items preds))
                           :: (class_column p <$> seq 0 k) |}, w)
          ∧ ∀ i r, i < k → r < length idx →
              (class_column p i).1 = "proba_class_" +:+ pretty i
              ∧ cells (class_column p i).2 !! r
                = Some (default VNaN (data p !! (r * k + i)%nat)))
     ∧ (∀ p k, proba = Some p → shape p = [length idx; k] → 10 < k →
          build_output idx preds proba w =
            (Ok {| index := idx;
                   cols := [("prediction", column_of_values (np_items preds));
                            ("proba", column_of_values (np_items p))] |}, w)
          ∧ length (np_items p) = length idx
          ∧ ∀ r, r < length idx →
              np_items p !! r
              = Some (VArr [k] (take k (drop (r * k) (data p)))))
     ∧ (∀ p n rest, proba = Some p → shape p = n :: rest → n = length idx →
          length rest ≠ 1%nat →
          build_output idx preds proba w =
            (Ok {| index := idx;
                   cols := [("prediction", column_of_values (np_items preds));
                            ("proba", column_of_values (np_items p))] |}, w)
          ∧ length (np_items p) = length idx)).
Proof.
  split.
  { intros out w' H. by apply build_output_inv in H as (? & _). }
  intros Hpreds. split_and!.
  - intros ->. by apply build_output_none.
  - intros p k -> Hp Hk. split; [by apply build_output_classes|].
    intros i r Hi Hr. split; [done|]. unfold class_column, np_column.
    rewrite Hp. cbn [snd cells column_of_values data].
    rewrite list_lookup_fmap, lookup_seq_lt by done. done.
  - intros p k -> Hp Hk. split_and!.
    + apply (build_output_single idx preds p (length idx) [k]); try done.
      by intros ? [= <-].
    + by eapply np_list_length; [|eapply np_list_ok].
    + intros r Hr. unfold np_items. rewrite (np_list_rows p _ _ _ Hp).
      rewrite list_lookup_fmap, lookup_seq_lt by done.
      cbn [size_of foldr]. by rewrite Nat.mul_1_r.
  - intros p n rest -> Hp Hn Hrest. split.
    + apply (build_output_single idx preds p n rest); try done.
      by intros k ->.
    + subst n. by eapply np_list_length; [|eapply np_list_ok].
Qed.

(** The end-to-end scenario of the specification: a probability matrix of
    shape (3, 12) gives one [proba] column of three 12-element vectors. *)
Example build_output_wide_matrix :
  ∃ c,
    build_output [0; 1; 2]%Z Ex.labels3 (Some Ex.proba_3_12) Ex.empty_world
    = (Ok {| index := [0; 1; 2]%Z;
             cols := [("prediction", column_of_values (data Ex.labels3));
                      ("proba", c)] |}, Ex.empty_world)
    ∧ length (cells c) = 3%nat
    ∧ ∀ v, v ∈ cells c → ∃ d, v = VArr [12%nat] d ∧ length d = 12%nat.
Proof.
  eexists. split_and!; [vm_compute; reflexivity|reflexivity|].
  intros v Hv. cbn in Hv.
  repeat (apply elem_of_cons in Hv as [->|Hv]; [by eexists|]).
  by apply elem_of_nil in Hv.
Qed.

(** With one label per row, and one item per row in the probabilities if
    there are any, the result table is built. *)
Lemma build_output_succeeds idx preds proba w :
  shape preds = [length idx] →
  (∀ p, proba = Some p → ∃ rest, shape p = length idx :: rest) →
  ∃ out, build_output idx preds proba w = (Ok out, w) ∧ index out = idx.
Proof.
  intros Hpreds Hproba. destruct proba as [p|].
  - destruct (Hproba p eq_refl) as [rest Hp].
    assert ((∃ k, rest = [k] ∧ k ≤ 10) ∨ (∀ k, rest = [k] → 10 < k))
      as [(k & -> & Hk)|Hno].
    { destruct rest as [|k [|??]]; [by right| |by right].
      destruct (decide (k ≤ 10)) as [Hk|Hk].
      - left. exists k. by split.
      - right. intros ? [= <-]. lia. }
    + eexists. split; [by apply build_output_classes|done].
    + eexists.
      split; [by apply (build_output_single idx preds p (length idx) rest)|done].
  - eexists. split; [by apply build_output_none|done].
Qed.

(** C8: for an input table with at least one row, the result table has the
    index of the input table, hence its row count and its row order, and
    each of its columns has that many cells.  This holds for the table a
    successful run of [run_predictions] builds, writes (when a path is given)
    and joins into the preview; and the table is built whenever the model
    produces one label per input row (and one item per input row in the
    probabilities, if it returns any). *)
Theorem run_predictions_rows env mp fp pp meta input output k w t :
  read_csv env input = inr t → index t ≠ [] →
  (∀ sample w',
     run_predictions env mp fp pp meta input output k w = (Ok sample, w') →
     ∃ out cur,
       index out = index t ∧ nrows out = nrows t ∧ wf_frame out
       ∧ sample = concat_axis1 (reset_index (loc_upto (k - 1) cur))
                    (reset_index out)
       ∧ (∀ p, given_path output = Some p →
            ∃ evs, log w' = evs ++ [EvToCsv p out]))
  ∧ (∀ preds proba w0,
       shape preds = [nrows t] →
       (∀ p, proba = Some p → ∃ rest, shape p = nrows t :: rest) →
       ∃ out, build_output (index t) preds proba w0 = (Ok out, w0)
              ∧ index out = index t).
Proof.
  intros Hcsv Hne. split.
  - intros sample w' Hrun.
    apply run_predictions_result_table in Hrun
      as (t' & out & cur & Hcsv' & (_ & Hwf & Hidx) & Hsample & Hlog).
    assert (t' = t) as -> by congruence.
    exists out, cur. specialize (Hidx Hne).
    split_and!; [done|by unfold nrows; rewrite Hidx|done..].
  - intros preds proba w0 Hpreds Hproba. by apply build_output_succeeds.
Qed.

(** C8 at the two-row input of the example run. *)
Lemma run_predictions_rows_witness :
  read_csv Ex.env_ok "in.csv" = inr Ex.input_2rows
  ∧ index Ex.input_2rows ≠ []
  ∧ (∀ sample w',
       run_predictions Ex.env_ok "model.pkl" "features.npy" None
         (Some "meta.json") "in.csv" (Some "out.csv") 5 Ex.empty_world
       = (Ok sample, w') →
       ∃ out cur,
         index out = index Ex.input_2rows
         ∧ nrows out = nrows Ex.input_2rows ∧ wf_frame out
         ∧ sample = concat_axis1 (reset_index (loc_upto (5 - 1) cur))
                      (reset_index out)
         ∧ (∀ p, given_path (Some "out.csv") = Some p →
              ∃ evs, log w' = evs ++ [EvToCsv p out]))
  ∧ (∀ preds proba w0,
       shape preds = [nrows Ex.input_2rows] →
       (∀ p, proba = Some p → ∃ rest, shape p = nrows Ex.input_2rows :: rest) →
       ∃ out, build_output (index Ex.input_2rows) preds proba w0 = (Ok out, w0)
              ∧ index out = index Ex.input_2rows).
Proof.
  split; [reflexivity|]. split; [discriminate|].
  apply (run_predictions_rows Ex.env_ok "model.pkl" "features.npy" None
           (Some "meta.json") "in.csv" (Some "out.csv") 5 Ex.empty_world
           Ex.input_2rows); [reflexivity|discriminate].
Defined.

(** A complete run without preprocessor: the caller-side frame ends with
    the added column [b], the result table keeps the two input rows. *)
Example run_predictions_end_to_end :
  ∃ sample w' out,
    run_predictions Ex.env_ok "model.pkl" "features.npy" None
      (Some "meta.json") "in.csv" (Some "out.csv") 5 Ex.empty_world
    = (Ok sample, w')
    ∧ last (log w') = Some (EvToCsv "out.csv" out)
    ∧ index out = [0; 1]%Z
    ∧ columns out = ["prediction"; "proba_class_0"; "proba_class_1"]
    ∧ columns sample =
        ["x"; "a"; "b"; "prediction"; "proba_class_0"; "proba_class_1"].
Proof.
  eexists _, _, _. split_and!; [vm_compute; reflexivity|reflexivity..].
Qed.

(** ** Further properties of the loader and of the adapters *)

(** X1: the loader returns an object exactly when the file exists and one
    of the two formats reads it.  What joblib reads is returned without
    pickle being tried; pickle is tried, once, only after joblib has
    failed, and its object is then returned with no trace of the joblib
    failure. *)
Theorem load_pickle_or_joblib_success env path w o w' :
  load_pickle_or_joblib env path w = (Ok o, w')
  ↔ path_exists env path = true
    ∧ ((joblib_load env path = inr o
        ∧ w' = {| heap := heap w; log := log w ++ [EvJoblibLoad path] |})
       ∨ (∃ ej, joblib_load env path = inl ej
                ∧ pickle_load env path = inr o
                ∧ w' = {| heap := heap w;
                          log := log w ++ [EvJoblibLoad path; EvPickleLoad path] |})).
Proof.
  unfold load_pickle_or_joblib.
  destruct (path_exists env path); cbn [negb]; [|split; [done|by intros [? _]]].
  unfold bind, try_except, external, ret, raise.
  destruct (joblib_load env path) as [ej|o1]; cbn [heap log].
  - destruct (pickle_load env path) as [ep|o2]; cbn [heap log].
    + split; [done|]. intros [_ [[? _]|(? & _ & ? & _)]]; done.
    + rewrite <-app_assoc. cbn [app]. split.
      * intros [= <- <-]. split; [done|]. right. by exists ej.
      * intros [_ [[? _]|(? & _ & [= <-] & ->)]]; done.
  - split.
    + intros [= <- <-]. split; [done|]. by left.
    + intros [_ [[[= <-] ->]|(? & ? & _)]]; done.
Qed.

(** The fallback at work: joblib fails, pickle delivers. *)
Example load_pickle_or_joblib_fallback :
  load_pickle_or_joblib Ex2.env_pickle_only "model.pkl" Ex.empty_world
  = (Ok Ex.classifier,
     {| heap := []; log := [EvJoblibLoad "model.pkl"; EvPickleLoad "model.pkl"] |}).
Proof. reflexivity. Qed.

(** X2: a model that has the probability operation but no label operation
    is not served by any other branch: the probability operation is called,
    then the lookup of [predict] fails with an [AttributeError], which is
    what the caller gets. *)
Theorem predict_with_model_proba_without_predict model pp X P w :
  attr_predict_proba model = Some pp → attr_predict model = None →
  pp (PRaw X) = inr P →
  ∃ msg,
    predict_with_model model X w =
      (Raise (AttributeError msg),
       {| heap := heap w; log := log w ++ [EvPredictProba (PRaw X)] |})
    ∧ contains "predict" msg = true.
Proof.
  intros Hpp Hp HP. unfold predict_with_model, call_method.
  rewrite Hpp, Hp. cbn [hasattr]. unfold bind, external, raise. rewrite HP.
  eexists. split; [done|]. reflexivity.
Qed.

(** X2 at an estimator with probabilities only. *)
Lemma predict_with_model_proba_without_predict_witness :
  attr_predict_proba Ex2.proba_only = Some Ex2.proba_method
  ∧ attr_predict Ex2.proba_only = None
  ∧ Ex2.proba_method (PRaw Ex.X22) = inr Ex.expected_proba
  ∧ ∃ msg,
      predict_with_model Ex2.proba_only Ex.X22 Ex.empty_world =
        (Raise (AttributeError msg),
         {| heap := heap Ex.empty_world;
            log := log Ex.empty_world ++ [EvPredictProba (PRaw Ex.X22)] |})
      ∧ contains "predict" msg = true.
Proof.
  split_and!; [reflexivity..|].
  apply (predict_with_model_proba_without_predict Ex2.proba_only
           Ex2.proba_method Ex.X22 Ex.expected_proba Ex.empty_world);
    reflexivity.
Defined.

(** X3: whatever the model and whatever the outcome, the adapter leaves the
    object store alone and calls the model at most twice, always on the
    matrix [X] as it received it: the probability operation, the label
    operation, or the first followed by the second.  No model is ever handed
    a [DMatrix]. *)
Theorem predict_with_model_calls model X w :
  heap (predict_with_model model X w).2 = heap w
  ∧ ∃ evs,
      log (predict_with_model model X w).2 = log w ++ evs
      ∧ (evs = [] ∨ evs = [EvPredictProba (PRaw X)]
         ∨ evs = [EvPredict (PRaw X)]
         ∨ evs = [EvPredictProba (PRaw X); EvPredict (PRaw X)]).
Proof.
  unfold predict_with_model, call_method.
  destruct model as [[pp|] [p|] tr|p]; cbn;
    unfold bind, external, ret, raise, try_except; cbn.
  - destruct (pp (PRaw X)); cbn.
    + split; [done|]. exists [EvPredictProba (PRaw X)]. auto.
    + destruct (p (PRaw X)); cbn; (split; [done|]);
        exists [EvPredictProba (PRaw X); EvPredict (PRaw X)];
        rewrite <-app_assoc; auto 6.
  - destruct (pp (PRaw X)); cbn; (split; [done|]);
      exists [EvPredictProba (PRaw X)]; auto.
  - destruct (p (PRaw X)); cbn; (split; [done|]);
      exists [EvPredict (PRaw X)]; auto.
  - split; [done|]. exists []. rewrite app_nil_r. auto.
  - destruct (p (PRaw X)); cbn; (split; [done|]);
      exists [EvPredict (PRaw X)]; auto.
Qed.

(** X4: every failure of the preprocessing adapter reaches the caller as a
    [RuntimeError] whose message starts with
    ["Preprocessor.transform failed: "]: failures of [transform] itself, and
    also a preprocessor that has no [transform] at all. *)
Theorem apply_preprocessor_error_class pre df w e w' :
  apply_preprocessor pre df w = (Raise e, w') →
  ∃ rest, e = RuntimeError ("Preprocessor.transform failed: " +:+ rest).
Proof.
  unfold apply_preprocessor, try_except.
  destruct (bind (deref df) _ w) as [[r|e1] w1]; [done|].
  destruct (bind (deref df) _ w1) as [[r|e2] w2]; [done|].
  unfold raise. intros [= <- _]. by eexists.
Qed.

(** X4 at an object without [transform]: no call is made, and the error is
    still the adapter's own. *)
Lemma apply_preprocessor_error_class_witness :
  apply_preprocessor Ex2.not_a_preprocessor 0 (Ex.world_of Ex.aligned_ab)
  = (Raise (RuntimeError
       ("Preprocessor.transform failed: "
        +:+ "object has no attribute 'transform'"
        +:+ "; fallback failed: "
        +:+ "object has no attribute 'transform'")),
     Ex.world_of Ex.aligned_ab)
  ∧ ∃ rest,
      RuntimeError
        ("Preprocessor.transform failed: "
         +:+ "object has no attribute 'transform'"
         +:+ "; fallback failed: "
         +:+ "object has no attribute 'transform'")
      = RuntimeError ("Preprocessor.transform failed: " +:+ rest).
Proof.
  split; [reflexivity|].
  apply (apply_preprocessor_error_class Ex2.not_a_preprocessor 0
           (Ex.world_of Ex.aligned_ab) _ (Ex.world_of Ex.aligned_ab)).
  reflexivity.
Defined.

(** ** Further properties of the aligner *)

Lemma dict_truthy_lookup {V} (d : gmap string V) k v :
  d !! k = Some v → dict_truthy d = true.
Proof.
  intros H. unfold dict_truthy. apply negb_true_iff, Nat.eqb_neq.
  by apply (map_size_ne_0_lookup_2 d k).
Qed.

Lemma dict_truthy_empty {V} : dict_truthy (∅ : gmap string V) = false.
Proof. unfold dict_truthy. by rewrite map_size_empty. Qed.

Lemma dict_truthy_non_empty {V} (d : gmap string V) :
  d ≠ ∅ → dict_truthy d = true.
Proof.
  intros H. unfold dict_truthy. apply negb_true_iff, Nat.eqb_neq.
  by apply map_size_non_empty_iff.
Qed.

(** The aligner reads its metadata through [meta_defaults_of] only. *)
Lemma prepare_input_dataframe_same_defaults df F md md' w :
  meta_defaults_of md = meta_defaults_of md' →
  prepare_input_dataframe df F md w = prepare_input_dataframe df F md' w.
Proof. intros H. unfold prepare_input_dataframe. by rewrite H. Qed.

Lemma meta_defaults_of_feature_defaults md fd :
  md !! "feature_defaults" = Some fd → fd ≠ ∅ →
  meta_defaults_of (Some md) = value_of_json <$> fd.
Proof.
  intros Hfd Hne. unfold meta_defaults_of.
  rewrite (dict_truthy_lookup md _ _ Hfd). cbv zeta. rewrite Hfd.
  simpl. by rewrite (dict_truthy_non_empty fd Hne).
Qed.

Lemma meta_defaults_of_defaults md d :
  md !! "feature_defaults" = None ∨ md !! "feature_defaults" = Some ∅ →
  md !! "defaults" = Some d →
  meta_defaults_of (Some md) = value_of_json <$> d.
Proof.
  intros Hfd Hd. unfold meta_defaults_of.
  rewrite (dict_truthy_lookup md _ _ Hd). cbv zeta. rewrite Hd.
  by destruct Hfd as [->| ->]; simpl; rewrite dict_truthy_empty.
Qed.

(** X5: the two metadata keys are not merged.  When [feature_defaults] holds
    at least one entry, everything under [defaults] is ignored, also for the
    features [feature_defaults] says nothing about; [defaults] is read only
    when [feature_defaults] is absent or empty. *)
Theorem prepare_input_dataframe_metadata_keys df F md w :
  (∀ fd, md !! "feature_defaults" = Some fd → fd ≠ ∅ →
     prepare_input_dataframe df F (Some md) w =
     prepare_input_dataframe df F (Some {[ "feature_defaults" := fd ]}) w)
  ∧ (∀ d, (md !! "feature_defaults" = None ∨ md !! "feature_defaults" = Some ∅) →
       md !! "defaults" = Some d →
       prepare_input_dataframe df F (Some md) w =
       prepare_input_dataframe df F (Some {[ "defaults" := d ]}) w).
Proof.
  split.
  - intros fd Hfd Hne. apply prepare_input_dataframe_same_defaults.
    rewrite (meta_defaults_of_feature_defaults md fd Hfd Hne).
    symmetry. apply meta_defaults_of_feature_defaults; [|done].
    apply lookup_singleton_eq.
  - intros d Hfd Hd. apply prepare_input_dataframe_same_defaults.
    rewrite (meta_defaults_of_defaults md d Hfd Hd).
    symmetry. apply meta_defaults_of_defaults.
    + left. by apply lookup_singleton_ne.
    + apply lookup_singleton_eq.
Qed.

(** With both keys present, feature [b] gets no default although [defaults]
    has one for it: it is filled with [0]. *)
Example prepare_input_dataframe_defaults_shadowed :
  ∃ w', prepare_input_dataframe 0 ["a"; "b"] (Some Ex2.meta_both)
          (Ex.world_of Ex.empty_row) = (Ok 1%nat, w')
        ∧ heap w' !! 1%nat =
            Some {| index := [0%Z];
                    cols := [("a", {| dtype_of := Numeric; cells := [VNum 1] |});
                             ("b", {| dtype_of := Numeric; cells := [VNum 0] |})] |}.
Proof. eexists. split; [vm_compute; reflexivity|reflexivity]. Qed.

(** X6: data that is present is never overwritten.  A cell of an input
    column that is named in the feature list and is not missing is found
    unchanged, at the same row, in the returned table, whatever the defaults
    are; and the column keeps its length. *)
Theorem prepare_input_dataframe_keeps_present_cells df F md t w n c i v :
  heap w !! df = Some t → NoDup (columns t) → NoDup F →
  n ∈ F → (n, c) ∈ cols t → cells c !! i = Some v → isna v = false →
  ∃ r w' t' c',
    prepare_input_dataframe df F md w = (Ok r, w')
    ∧ heap w' !! r = Some t'
    ∧ (n, c') ∈ cols t'
    ∧ cells c' !! i = Some v
    ∧ length (cells c') = length (cells c).
Proof.
  intros Hdf Ht HF Hn Hc Hi Hv. set (D := meta_defaults_of md).
  exists (length (heap w)). eexists. exists (aligned D F t).
  exists (fill_missing D n c). split_and!.
  - by apply prepare_input_dataframe_run.
  - cbn [heap]. rewrite lookup_app_r, length_insert, Nat.sub_diag; [done|].
    by rewrite length_insert.
  - unfold aligned. cbn [cols]. apply list_elem_of_fmap. exists n.
    by rewrite (source_column_present D t n c Ht Hc).
  - unfold fill_missing.
    destruct (isna_any c); [|done].
    destruct (D !! n); [|destruct (is_numeric_dtype c)];
      unfold fillna; cbn [cells]; rewrite list_lookup_fmap, Hi; cbn;
      by rewrite Hv.
  - unfold fill_missing.
    destruct (isna_any c); [|done].
    destruct (D !! n); [|destruct (is_numeric_dtype c)];
      unfold fillna; cbn [cells]; by rewrite length_fmap.
Qed.

(** X6 at the two-row input: the [5] of column [a] stays, the missing cell
    below it is the one that is filled. *)
Lemma prepare_input_dataframe_keeps_present_cells_witness :
  heap (Ex.world_of Ex.input_2rows) !! 0%nat = Some Ex.input_2rows
  ∧ NoDup (columns Ex.input_2rows)
  ∧ NoDup ["a"; "b"]
  ∧ "a" ∈ ["a"; "b"]
  ∧ ("a", {| dtype_of := Numeric; cells := [VNum 5; VNaN] |}) ∈ cols Ex.input_2rows
  ∧ cells {| dtype_of := Numeric; cells := [VNum 5; VNaN] |} !! 0%nat = Some (VNum 5)
  ∧ isna (VNum 5) = false
  ∧ ∃ r w' t' c',
      prepare_input_dataframe 0 ["a"; "b"] (Some Ex.meta_ab)
        (Ex.world_of Ex.input_2rows) = (Ok r, w')
      ∧ heap w' !! r = Some t'
      ∧ ("a", c') ∈ cols t'
      ∧ cells c' !! 0%nat = Some (VNum 5)
      ∧ length (cells c')
        = length (cells {| dtype_of := Numeric; cells := [VNum 5; VNaN] |}).
Proof.
  split_and!;
    [reflexivity|nodup_by_computation|nodup_by_computation
    |by left|by right; left|reflexivity|reflexivity|].
  apply (prepare_input_dataframe_keeps_present_cells 0 ["a"; "b"]
           (Some Ex.meta_ab) Ex.input_2rows (Ex.world_of Ex.input_2rows)
           "a" {| dtype_of := Numeric; cells := [VNum 5; VNaN] |} 0 (VNum 5));
    [reflexivity|nodup_by_computation|nodup_by_computation
    |by left|by right; left|reflexivity|reflexivity].
Defined.

(** X7: a feature that the input lacks and for which the metadata has no
    default ends as a numeric column of zeros, one per input row: the column
    is created from the float sentinel, so the type heuristic always takes
    its numeric side and never fills an absent feature with the empty
    string. *)
Theorem prepare_input_dataframe_absent_feature_zero df F md t w n :
  heap w !! df = Some t → NoDup (columns t) → NoDup F →
  n ∈ F → n ∉ columns t → meta_defaults_of md !! n = None →
  ∃ r w' t',
    prepare_input_dataframe df F md w = (Ok r, w')
    ∧ heap w' !! r = Some t'
    ∧ (n, {| dtype_of := Numeric; cells := replicate (nrows t) (VNum 0) |})
      ∈ cols t'.
Proof.
  intros Hdf Ht HF Hn Habs HD. set (D := meta_defaults_of md).
  exists (length (heap w)). eexists. exists (aligned D F t). split_and!.
  - by apply prepare_input_dataframe_run.
  - cbn [heap]. rewrite lookup_app_r, length_insert, Nat.sub_diag; [done|].
    by rewrite length_insert.
  - unfold aligned. cbn [cols]. apply list_elem_of_fmap. exists n.
    split; [|done]. f_equal.
    rewrite (source_column_absent D t n Habs). fold D in HD. rewrite HD.
    cbn [default]. unfold fill_missing, isna_any, broadcast. cbn [cells].
    rewrite HD. destruct (nrows t) as [|k]; [done|].
    cbn [replicate existsb isna orb]. unfold fillna, is_numeric_dtype.
    cbn [dtype_of scalar_dtype cells is_str andb]. f_equal.
    cbn [fmap list_fmap isna]. f_equal. by rewrite fmap_replicate.
Qed.

(** X7 at the empty row and a feature list the metadata does not cover. *)
Lemma prepare_input_dataframe_absent_feature_zero_witness :
  heap (Ex.world_of Ex.empty_row) !! 0%nat = Some Ex.empty_row
  ∧ NoDup (columns Ex.empty_row)
  ∧ NoDup ["a"; "c"]
  ∧ "c" ∈ ["a"; "c"]
  ∧ ("c" ∉ columns Ex.empty_row)
  ∧ meta_defaults_of (Some Ex.meta_ab) !! "c" = None
  ∧ ∃ r w' t',
      prepare_input_dataframe 0 ["a"; "c"] (Some Ex.meta_ab)
        (Ex.world_of Ex.empty_row) = (Ok r, w')
      ∧ heap w' !! r = Some t'
      ∧ ("c", {| dtype_of := Numeric;
                 cells := replicate (nrows Ex.empty_row) (VNum 0) |})
        ∈ cols t'.
Proof.
  split_and!;
    [reflexivity|nodup_by_computation|nodup_by_computation
    |by right; left|by intros ?%elem_of_nil|reflexivity|].
  apply (prepare_input_dataframe_absent_feature_zero 0 ["a"; "c"]
           (Some Ex.meta_ab) Ex.empty_row (Ex.world_of Ex.empty_row) "c");
    [reflexivity|nodup_by_computation|nodup_by_computation
    |by right; left|by intros ?%elem_of_nil|reflexivity].
Defined.

(** ** The aligner on feature lists with repeated names *)

Lemma length_labelled x t :
  length (labelled x t) = length (filter (λ y, y = x) (columns t)).
Proof.
  unfold labelled, columns. induction (cols t) as [|[m c] l IH]; [done|].
  rewrite fmap_cons. cbn [fst]. rewrite !filter_cons. cbn [fst].
  destruct (decide (m = x)); cbn [length]; by rewrite IH.
Qed.

Lemma not_NoDup_repeated (l : list string) :
  ¬ NoDup l → ∃ x, x ∈ l ∧ 2 ≤ length (filter (λ y, y = x) l).
Proof.
  induction l as [|a l IH]; intros Hnd; [destruct Hnd; constructor|].
  destruct (decide (a ∈ l)) as [Hin|Hin].
  - exists a. split; [by left|]. rewrite filter_cons_True by done.
    cbn [length]. apply le_n_S.
    assert (a ∈ filter (λ y, y = a) l) as Hf by (by apply list_elem_of_filter).
    destruct (filter (λ y, y = a) l); [by apply elem_of_nil in Hf|cbn; lia].
  - destruct IH as (x & Hx & Hlen).
    { intros Hl. apply Hnd. by constructor. }
    exists x. split; [by right|]. rewrite filter_cons.
    destruct (decide (a = x)); cbn [length]; lia.
Qed.

Lemma labelled_of_column x t : x ∈ columns t → labelled x t ≠ [].
Proof.
  intros [c Hc]%label_has_column Hnil.
  assert ((x, c) ∈ labelled x t) as Hin by (by apply list_elem_of_filter).
  rewrite Hnil in Hin. by apply elem_of_nil in Hin.
Qed.

Lemma columns_set_column_present col c t :
  col ∈ columns t → columns (set_column col c t) = columns t.
Proof.
  intros Hin. unfold set_column, has_column. rewrite bool_decide_eq_true_2 by done.
  unfold columns. cbn [cols]. rewrite <-list_fmap_compose.
  apply list_fmap_ext. intros i [m d] _. cbn. by destruct (String.eqb m col).
Qed.

(** The first loop of the aligner for an arbitrary feature list. *)
Lemma add_missing_loop_any (D : gmap string value) df F : ∀ t w,
  heap w !! df = Some t →
  ∃ t1,
    for_each F (λ col,
      let! t := deref df in
      if negb (has_column col t) then
        assign df (set_column col (broadcast (default VNaN (D !! col)) (nrows t)) t)
      else ret tt) w
    = (Ok tt, {| heap := <[df := t1]> (heap w); log := log w |})
    ∧ index t1 = index t
    ∧ (NoDup (columns t) → NoDup (columns t1))
    ∧ (∀ n, n ∈ columns t → n ∈ columns t1)
    ∧ (∀ n, n ∈ F → n ∈ columns t1).
Proof.
  induction F as [|col F IH]; intros t w Hdf.
  - exists t. cbn. unfold ret. rewrite list_insert_id, world_eta by done.
    split_and!; [done..|]. by intros n ?%elem_of_nil.
  - cbn [for_each]. unfold bind at 1. unfold bind at 1.
    rewrite (deref_ok _ _ _ Hdf).
    destruct (has_column col t) eqn:Hin; cbn [negb]; unfold has_column in Hin.
    + apply bool_decide_eq_true_1 in Hin. unfold ret at 1.
      destruct (IH t w Hdf) as (t1 & Hrun & Hidx & Hnd & Hold & Hnew).
      exists t1. split_and!; [done..|].
      intros n [->|Hn]%elem_of_cons; auto.
    + apply bool_decide_eq_false_1 in Hin. unfold assign at 1.
      set (t' := set_column col _ t).
      assert (columns t' = columns t ++ [col]) as Hcols.
      { unfold t'. rewrite set_column_new by done. unfold columns. cbn [cols].
        by rewrite fmap_app. }
      assert (index t' = index t) as Hidx'.
      { unfold t'. by rewrite set_column_new. }
      edestruct (IH t' (World (<[df := t']> (heap w)) (log w)))
        as (t1 & Hrun & Hidx & Hnd & Hold & Hnew).
      { cbn. apply list_lookup_insert_eq. by eapply lookup_lt_Some. }
      exists t1. rewrite Hrun. cbn [heap log]. rewrite list_insert_insert_eq.
      split_and!; [done|congruence| | |].
      * intros Ht. apply Hnd. rewrite Hcols. apply NoDup_app.
        split_and!; [done| |apply NoDup_singleton].
        intros n Hn ->%list_elem_of_singleton. done.
      * intros n Hn. apply Hold. rewrite Hcols. apply elem_of_app. by left.
      * intros n [->|Hn]%elem_of_cons; [|by auto].
        apply Hold. rewrite Hcols. apply elem_of_app. right. by left.
Qed.

Lemma select_columns_any F t :
  NoDup (columns t) → (∀ n, n ∈ F → n ∈ columns t) →
  ∃ sel, select_columns F t = Ok sel ∧ columns sel = F.
Proof.
  intros Hnd HF. unfold select_columns. rewrite filter_none by (intros n Hn; auto).
  eexists. split; [done|]. unfold columns. cbn [cols].
  clear -Hnd HF. induction F as [|n F IH]; [done|].
  rewrite bind_cons, fmap_app, IH by (intros m Hm; apply HF; by right).
  destruct (label_has_column (cols t) n) as [c Hc]; [apply HF; by left|].
  unfold labelled at 1. by rewrite (filter_label_unique _ _ _ Hnd Hc).
Qed.

(** Once the selected frame has a repeated label among the labels that are
    still to be visited, the fill loop ends in a [ValueError]. *)
Lemma fill_loop_duplicate (D : gmap string value) r L : ∀ cur w,
  heap w !! r = Some cur →
  (∀ x, x ∈ L → x ∈ columns cur) →
  (∃ x, x ∈ L ∧ 2 ≤ length (labelled x cur)) →
  ∃ msg w',
    for_each L (λ col,
      let! cur := deref r in
      let! c := lift (series_at col cur) in
      if isna_any c then
        match D !! col with
        | Some d => assign r (set_column col (fillna d c) cur)
        | None =>
            if is_numeric_dtype c
            then assign r (set_column col (fillna (VNum 0) c) cur)
            else assign r (set_column col (fillna (VStr "") c) cur)
        end
      else ret tt) w
    = (Raise (ValueError msg), w').
Proof.
  induction L as [|col L IH]; intros cur w Hr Hsub (x & Hx & Hlen).
  { by apply elem_of_nil in Hx. }
  cbn [for_each]. unfold bind at 1. unfold bind at 1.
  rewrite (deref_ok _ _ _ Hr). unfold bind at 1. unfold lift at 1.
  unfold series_at.
  destruct (labelled col cur) as [|nc [|nc2 rest]] eqn:Hlab.
  - exfalso. apply (labelled_of_column col cur); [|done]. apply Hsub. by left.
  - assert (x ≠ col) as Hne.
    { intros ->. rewrite Hlab in Hlen. cbn in Hlen. lia. }
    assert (x ∈ L) as HxL.
    { apply elem_of_cons in Hx as [?|?]; done. }
    assert (col ∈ columns cur) as Hcol by (apply Hsub; by left).
    assert (∀ X w1,
      heap w1 !! r = Some cur →
      ∃ msg w',
        for_each L (λ col,
          let! cur := deref r in
          let! c := lift (series_at col cur) in
          if isna_any c then
            match D !! col with
            | Some d => assign r (set_column col (fillna d c) cur)
            | None =>
                if is_numeric_dtype c
                then assign r (set_column col (fillna (VNum 0) c) cur)
                else assign r (set_column col (fillna (VStr "") c) cur)
            end
          else ret tt)
          {| heap := <[r := set_column col X cur]> (heap w1); log := log w1 |}
        = (Raise (ValueError msg), w')) as Hset.
    { intros X w1 Hr1. apply (IH (set_column col X cur)).
      - cbn. apply list_lookup_insert_eq. by eapply lookup_lt_Some.
      - intros y Hy. rewrite columns_set_column_present by done.
        apply Hsub. by right.
      - exists x. split; [done|].
        by rewrite length_labelled, columns_set_column_present,
          <-length_labelled. }
    destruct (isna_any nc.2).
    + destruct (D !! col); [|destruct (is_numeric_dtype nc.2)];
        unfold assign at 1; by apply Hset.
    + unfold ret at 1. apply (IH cur w Hr).
      * intros y Hy. apply Hsub. by right.
      * by exists x.
  - by eexists _, _.
Qed.

(** X8: a feature list that repeats a name never yields an aligned table:
    once the missing columns have been added and the columns selected, the
    truth test of line 61 meets a frame instead of a series and the call
    ends in a [ValueError]. *)
Theorem prepare_input_dataframe_duplicate_features df F md t w :
  heap w !! df = Some t → NoDup (columns t) → ¬ NoDup F →
  ∃ msg w', prepare_input_dataframe df F md w = (Raise (ValueError msg), w').
Proof.
  intros Hdf Ht HF. unfold prepare_input_dataframe.
  set (D := meta_defaults_of md).
  destruct (add_missing_loop_any D df F t w Hdf)
    as (t1 & Hrun & Hidx & Hnd & Hold & Hnew).
  rewrite (bind_ok _ _ _ _ _ Hrun).
  set (h1 := <[df := t1]> (heap w)).
  assert (h1 !! df = Some t1) as Hdf1.
  { apply list_lookup_insert_eq. by eapply lookup_lt_Some. }
  rewrite (bind_ok _ _ _ _ _ (deref_ok df (World h1 (log w)) t1 Hdf1)).
  destruct (select_columns_any F t1 (Hnd Ht) Hnew) as (sel & Hsel & Hcols).
  unfold lift at 1. unfold bind at 1. rewrite Hsel.
  unfold alloc at 1. unfold bind at 1. cbn [heap log].
  destruct (fill_loop_duplicate D (length h1) (columns sel) sel
              (World (h1 ++ [sel]) (log w))) as (msg & w' & Hloop).
  - cbn. by rewrite lookup_app_r, Nat.sub_diag by lia.
  - done.
  - rewrite Hcols. destruct (not_NoDup_repeated F HF) as (x & Hx & Hlen).
    exists x. split; [done|]. by rewrite length_labelled, Hcols.
  - exists msg, w'. by rewrite (bind_raise _ _ _ _ _ Hloop).
Qed.

(** X8 at the feature list [a, a]. *)
Lemma prepare_input_dataframe_duplicate_features_witness :
  heap (Ex.world_of Ex.empty_row) !! 0%nat = Some Ex.empty_row
  ∧ NoDup (columns Ex.empty_row)
  ∧ ¬ NoDup ["a"; "a"]
  ∧ ∃ msg w',
      prepare_input_dataframe 0 ["a"; "a"] (Some Ex.meta_ab)
        (Ex.world_of Ex.empty_row) = (Raise (ValueError msg), w').
Proof.
  assert (¬ NoDup ["a"; "a"]) as Hdup.
  { intros [Hin _]%NoDup_cons. apply Hin. by left. }
  split_and!; [reflexivity|nodup_by_computation|exact Hdup|].
  apply (prepare_input_dataframe_duplicate_features 0 ["a"; "a"]
           (Some Ex.meta_ab) Ex.empty_row (Ex.world_of Ex.empty_row));
    [reflexivity|nodup_by_computation|exact Hdup].
Defined.

(** ** The test of the aligner, and the assembler on a wrong label count *)

Lemma isna_any_broadcast v n : isna v = false → isna_any (broadcast v n) = false.
Proof.
  intros Hv. unfold isna_any, broadcast. cbn [cells].
  induction n as [|n IH]; [done|]. cbn. by rewrite Hv, IH.
Qed.

(** X9: [test_prepare_input_with_metadata_defaults] passes for every feature
    list without repeated names that has at least two names: aligning a
    table with rows and no columns under the defaults
    [{features[0]: 123, features[1]: "foo"}] returns a table whose columns
    are the feature list and whose first row holds [123] under the first
    feature and ["foo"] under the second. *)
Theorem test_prepare_input_with_metadata_defaults df f0 f1 rest t w :
  heap w !! df = Some t → cols t = [] → 0 < nrows t →
  NoDup (f0 :: f1 :: rest) →
  ∃ r w' t' c0 c1,
    prepare_input_dataframe df (f0 :: f1 :: rest)
      (Some {[ "feature_defaults" := <[f1 := JStr "foo"]> {[ f0 := JNum 123 ]} ]})
      w = (Ok r, w')
    ∧ heap w' !! r = Some t'
    ∧ columns t' = f0 :: f1 :: rest
    ∧ (f0, c0) ∈ cols t' ∧ cells c0 !! 0%nat = Some (VNum 123)
    ∧ (f1, c1) ∈ cols t' ∧ cells c1 !! 0%nat = Some (VStr "foo").
Proof.
  intros Hdf Hcols Hrows HF.
  set (fd := <[f1 := JStr "foo"]> ({[ f0 := JNum 123 ]} : gmap string json_scalar)).
  set (md := Some ({[ "feature_defaults" := fd ]}
                   : gmap string (gmap string json_scalar))).
  set (D := meta_defaults_of md).
  assert (f0 ≠ f1) as Hne.
  { apply NoDup_cons in HF as [Hin _]. intros ->. apply Hin. by left. }
  assert (D = value_of_json <$> fd) as HD.
  { apply meta_defaults_of_feature_defaults; [apply lookup_singleton_eq|].
    apply insert_non_empty. }
  assert (D !! f0 = Some (VNum 123)) as HD0.
  { rewrite HD, lookup_fmap. unfold fd.
    by rewrite lookup_insert_ne, lookup_singleton_eq by done. }
  assert (D !! f1 = Some (VStr "foo")) as HD1.
  { rewrite HD, lookup_fmap. unfold fd. by rewrite lookup_insert_eq. }
  assert (NoDup (columns t)) as Ht.
  { unfold columns. rewrite Hcols. constructor. }
  assert (∀ n, n ∉ columns t) as Habs.
  { intros n. unfold columns. rewrite Hcols. by intros ?%elem_of_nil. }
  assert (∀ n v, D !! n = Some v → isna v = false →
            fill_missing D n (source_column D t n) = broadcast v (nrows t)) as Hfill.
  { intros n v Hn Hv. rewrite source_column_absent by done. rewrite Hn.
    cbn [default from_option id]. unfold fill_missing.
    by rewrite isna_any_broadcast. }
  exists (length (heap w)). eexists. exists (aligned D (f0 :: f1 :: rest) t).
  exists (broadcast (VNum 123) (nrows t)), (broadcast (VStr "foo") (nrows t)).
  split_and!.
  - by apply prepare_input_dataframe_run.
  - cbn [heap]. rewrite lookup_app_r, length_insert, Nat.sub_diag; [done|].
    by rewrite length_insert.
  - apply columns_aligned.
  - unfold aligned. cbn [cols]. apply list_elem_of_fmap. exists f0.
    split; [by rewrite (Hfill f0 (VNum 123))|by left].
  - by apply lookup_replicate_2.
  - unfold aligned. cbn [cols]. apply list_elem_of_fmap. exists f1.
    split; [by rewrite (Hfill f1 (VStr "foo"))|by right; left].
  - by apply lookup_replicate_2.
Qed.

(** X9 at the feature list [a, b, c] and [pd.DataFrame([{}])]. *)
Lemma test_prepare_input_with_metadata_defaults_witness :
  heap (Ex.world_of Ex.empty_row) !! 0%nat = Some Ex.empty_row
  ∧ cols Ex.empty_row = []
  ∧ 0 < nrows Ex.empty_row
  ∧ NoDup ["a"; "b"; "c"]
  ∧ ∃ r w' t' c0 c1,
      prepare_input_dataframe 0 ["a"; "b"; "c"]
        (Some {[ "feature_defaults" := <["b" := JStr "foo"]> {[ "a" := JNum 123 ]} ]})
        (Ex.world_of Ex.empty_row) = (Ok r, w')
      ∧ heap w' !! r = Some t'
      ∧ columns t' = ["a"; "b"; "c"]
      ∧ ("a", c0) ∈ cols t' ∧ cells c0 !! 0%nat = Some (VNum 123)
      ∧ ("b", c1) ∈ cols t' ∧ cells c1 !! 0%nat = Some (VStr "foo").
Proof.
  split_and!; [reflexivity|reflexivity|cbn; lia|nodup_by_computation|].
  apply (test_prepare_input_with_metadata_defaults 0 "a" "b" ["c"]
           Ex.empty_row (Ex.world_of Ex.empty_row));
    [reflexivity|reflexivity|cbn; lia|nodup_by_computation].
Defined.

(** X10: on a table with rows, a one-dimensional array of labels whose
    length differs from the row count stops the assembler at its first
    assignment with a [ValueError]: no result table is built, with or without
    probabilities, and nothing is truncated or padded. *)
Theorem build_output_label_count_mismatch idx preds proba w m :
  idx ≠ [] → shape preds = [m] → m ≠ length idx →
  ∃ msg, build_output idx preds proba w = (Raise (ValueError msg), w).
Proof.
  intros Hne Hshape Hm. unfold build_output. unfold bind at 1. unfold lift at 1.
  unfold setitem_array. rewrite Hshape.
  rewrite (np_list_1d preds m Hshape). unfold setitem_values.
  rewrite length_fmap, length_seq. cbv zeta. unfold nrows. cbn [index].
  destruct idx as [|i idx]; [done|].
  change (length (i :: idx) =? 0) with false. cbn [andb index].
  destruct (Nat.eqb_spec m (length (i :: idx))) as [?|_]; [done|].
  by eexists.
Qed.

(** X10 at three labels for a two-row table. *)
Lemma build_output_label_count_mismatch_witness :
  [0; 1]%Z ≠ []
  ∧ shape Ex.labels3 = [3%nat]
  ∧ 3%nat ≠ length [0; 1]%Z
  ∧ ∃ msg, build_output [0; 1]%Z Ex.labels3 (Some Ex.expected_proba)
             Ex.empty_world = (Raise (ValueError msg), Ex.empty_world).
Proof.
  split_and!; [discriminate|reflexivity|cbn; lia|].
  apply (build_output_label_count_mismatch [0; 1]%Z Ex.labels3
           (Some Ex.expected_proba) Ex.empty_world 3);
    [discriminate|reflexivity|cbn; lia].
Defined.

(** ** The expansion of raw binary predictions (lines 112-114) *)

Lemma map_result_one_minus (ps : list Q) :
  map_result one_minus (VNum <$> ps) = Ok ((λ x, VNum (1 - x)) <$> ps).
Proof. induction ps as [|x ps IH]; [done|]. cbn. by rewrite IH. Qed.

Lemma bind_seq_lookup {A B} (ps : list A) (g : A → list B) (h : nat → list B) :
  ∀ s, (∀ j x, ps !! j = Some x → h (s + j)%nat = g x) →
       seq s (length ps) ≫= h = ps ≫= g.
Proof.
  induction ps as [|x ps IH]; intros s Hh; [done|].
  cbn [length seq]. rewrite !bind_cons.
  rewrite <-(Hh 0%nat x eq_refl), Nat.add_0_r. f_equal.
  apply IH. intros j y Hj. rewrite <-(Hh (S j) y Hj). f_equal. lia.
Qed.

Lemma lookup_pairs {A B} (a b : A → B) (ps : list A) : ∀ i,
  (ps ≫= (λ x, [a x; b x])) !! (i * 2)%nat = a <$> ps !! i
  ∧ (ps ≫= (λ x, [a x; b x])) !! (i * 2 + 1)%nat = b <$> ps !! i.
Proof.
  induction ps as [|x ps IH]; intros i; [done|].
  rewrite bind_cons. destruct i as [|i]; [done|].
  destruct (IH i) as [IH1 IH2]. cbn [Nat.mul Nat.add app].
  by rewrite !lookup_cons.
Qed.

Lemma bind_singleton_fmap {A B} (f : A → B) (l : list A) :
  l ≫= (λ x, [f x]) = f <$> l.
Proof. induction l as [|x l IH]; [done|]. by rewrite bind_cons, IH. Qed.

(** X11: the expansion written for raw binary predictions is right in
    itself.  Applied to a one-dimensional array of numbers [p], the
    operations [1 - proba], [np.vstack([..., proba]).T] and
    [np.argmax(..., axis=1)] give the two-column matrix whose row [i] is
    [[1 - p_i, p_i]], and the label [1] for the rows with [1 - p_i < p_i],
    the label [0] for the others (a tie goes to class 0). *)
Theorem binary_expansion (ps : list Q) :
  ∃ q st,
    np_one_minus {| shape := [length ps]; data := VNum <$> ps |} = Ok q
    ∧ np_vstack2 q {| shape := [length ps]; data := VNum <$> ps |} = Ok st
    ∧ np_T st =
        {| shape := [length ps; 2%nat];
           data := ps ≫= (λ x, [VNum (1 - x); VNum x]) |}
    ∧ np_argmax_axis1 (np_T st) =
        Ok {| shape := [length ps];
              data := (λ x, VNum (inject_Z (Z.of_nat
                              (if negb (Qle_bool x (1 - x)) then 1 else 0))))
                      <$> ps |}.
Proof.
  set (p := {| shape := [length ps]; data := VNum <$> ps |}).
  set (qd := (λ x, VNum (1 - x)) <$> ps).
  assert (length qd = length ps) as Hq by apply length_fmap.
  assert (length (VNum <$> ps) = length ps) as Hp by apply length_fmap.
  assert (np_T {| shape := [2%nat; length ps]; data := qd ++ data p |}
          = {| shape := [length ps; 2%nat];
               data := ps ≫= (λ x, [VNum (1 - x); VNum x]) |}) as HT.
  { unfold np_T. cbn [shape data]. f_equal.
    apply (bind_seq_lookup ps). intros j x Hj. cbn [p data].
    pose proof (lookup_lt_Some _ _ _ Hj) as Hlt.
    cbn [seq fmap list_fmap Nat.add Nat.mul].
    rewrite lookup_app_l by lia.
    rewrite lookup_app_r by lia.
    replace (length ps + 0 + j - length qd)%nat with j by lia.
    unfold qd. by rewrite !list_lookup_fmap, Hj. }
  exists {| shape := [length ps]; data := qd |}.
  exists {| shape := [2%nat; length ps]; data := qd ++ data p |}.
  split_and!.
  - unfold np_one_minus. cbn [data shape p]. by rewrite map_result_one_minus.
  - unfold np_vstack2. cbn [data p]. by rewrite Hq, Hp, Nat.eqb_refl.
  - exact HT.
  - rewrite HT. unfold np_argmax_axis1. cbn [shape data Nat.eqb size_of foldr].
    f_equal. f_equal.
    rewrite <-bind_singleton_fmap. apply (bind_seq_lookup ps).
    intros i x Hi. cbn [seq fmap list_fmap Nat.add]. f_equal.
    destruct (lookup_pairs (λ x, VNum (1 - x)) VNum ps i) as [H0 H1].
    replace ((i * 2 + 0) * 1 + 0)%nat with (i * 2)%nat by lia.
    replace ((i * 2 + 1) * 1 + 0)%nat with (i * 2 + 1)%nat by lia.
    rewrite H0, H1, Hi. cbn [fmap option_fmap option_map default from_option id].
    cbn [argmax argmax_from value_lt].
    by destruct (negb (Qle_bool x (1 - x))).
Qed.

(** ** How the computations of the pipeline act on the world *)

Lemma extends_refl P w : extends P w w.
Proof.
  split; [exists []; by rewrite app_nil_r|]. intros r t Hr. by exists t.
Qed.

Lemma extends_trans P w1 w2 w3 :
  extends P w1 w2 → extends P w2 w3 → extends P w1 w3.
Proof.
  intros [(e1 & Hl1 & HP1) Hh1] [(e2 & Hl2 & HP2) Hh2]. split.
  - exists (e1 ++ e2). rewrite Hl2, Hl1, app_assoc.
    split; [done|by apply Forall_app_2].
  - intros r t Hr. destruct (Hh1 r t Hr) as (t' & Hr' & Hi').
    destruct (Hh2 r t' Hr') as (t'' & Hr'' & Hi''). exists t''.
    split; [done|congruence].
Qed.

Lemma extends_weaken (P Q : event → Prop) w w' :
  (∀ e, P e → Q e) → extends P w w' → extends Q w w'.
Proof.
  intros HPQ [(evs & Hl & HP) Hh]. split; [|done].
  exists evs. split; [done|]. by eapply Forall_impl.
Qed.

Lemma extends_log P w h evs :
  Forall P evs → heap w = h →
  extends P w {| heap := h; log := log w ++ evs |}.
Proof.
  intros HP <-. split; [by exists evs|]. intros r t Hr. by exists t.
Qed.

Lemma extends_assign P w r t t' :
  heap w !! r = Some t → index t' = index t →
  extends P w {| heap := <[r := t']> (heap w); log := log w |}.
Proof.
  intros Hr Hidx. split; [exists []; cbn; by rewrite app_nil_r|].
  intros r0 t0 Hr0. cbn [heap]. destruct (decide (r0 = r)) as [->|Hne].
  - exists t'. rewrite list_lookup_insert_eq by (by eapply lookup_lt_Some).
    split; [done|congruence].
  - exists t0. by rewrite list_lookup_insert_ne.
Qed.

Lemma emits_weaken {A} (P Q : event → Prop) (m : M A) :
  (∀ e, P e → Q e) → emits P m → emits Q m.
Proof. intros HPQ Hm w r w' H. eapply extends_weaken; [done|by eapply Hm]. Qed.

Lemma emits_ret {A} P (a : A) : emits P (ret a).
Proof. intros w r w' [= <- <-]. apply extends_refl. Qed.

Lemma emits_raise {A} P e : emits P (raise e : M A).
Proof. intros w r w' [= <- <-]. apply extends_refl. Qed.

Lemma emits_lift {A} P (x : result A) : emits P (lift x).
Proof. intros w r w' [= <- <-]. apply extends_refl. Qed.

Lemma emits_deref P r : emits P (deref r).
Proof.
  intros w x w'. unfold deref.
  destruct (heap w !! r); intros [= <- <-]; apply extends_refl.
Qed.

Lemma emits_alloc P t : emits P (alloc t).
Proof.
  intros w x w' [= <- <-]. split; [exists []; cbn; by rewrite app_nil_r|].
  intros r t0 Hr. exists t0. cbn. by rewrite (lookup_app_l_Some _ _ _ _ Hr).
Qed.

Lemma emits_external {A} (P : event → Prop) ev (x : string + A) :
  P ev → emits P (external ev x).
Proof.
  intros HP w r w' [= <- <-]. apply extends_log; [|done].
  by apply Forall_singleton.
Qed.

Lemma emits_to_csv (P : event → Prop) p out :
  P (EvToCsv p out) → emits P (to_csv p out).
Proof.
  intros HP w r w' [= <- <-]. apply extends_log; [|done].
  by apply Forall_singleton.
Qed.

Lemma emits_bind {A B} P (m : M A) (k : A → M B) :
  emits P m → (∀ a, emits P (k a)) → emits P (bind m k).
Proof.
  intros Hm Hk w r w'. unfold bind.
  destruct (m w) as [[a|e] w1] eqn:Hmw.
  - intros Hka. eapply extends_trans; [by eapply Hm|by eapply Hk].
  - intros [= <- <-]. by eapply Hm.
Qed.

Lemma emits_try_except {A} P (m : M A) (h : exn → M A) :
  emits P m → (∀ e, emits P (h e)) → emits P (try_except m h).
Proof.
  intros Hm Hh w r w'. unfold try_except.
  destruct (m w) as [[a|e] w1] eqn:Hmw.
  - intros [= <- <-]. by eapply Hm.
  - intros Hhe. eapply extends_trans; [by eapply Hm|by eapply Hh].
Qed.

Lemma emits_for_each {A} P (l : list A) (body : A → M unit) :
  (∀ x, emits P (body x)) → emits P (for_each l body).
Proof.
  intros Hb. induction l as [|x l IH]; [apply emits_ret|].
  cbn [for_each]. apply emits_bind; [apply Hb|by intros _].
Qed.

Lemma emits_fold_each {A S} P (l : list A) (body : S → A → M S) : ∀ s,
  (∀ s x, emits P (body s x)) → emits P (fold_each l s body).
Proof.
  induction l as [|x l IH]; intros s Hb; [apply emits_ret|].
  cbn [fold_each]. apply emits_bind; [apply Hb|]. intros s'. by apply IH.
Qed.

Lemma index_set_column col c t : index (set_column col c t) = index t.
Proof. unfold set_column. by destruct (has_column col t). Qed.

(** An in-place column assignment on the object behind [r]. *)
Lemma emits_set_column P r col c t w :
  heap w !! r = Some t → ∀ x w', assign r (set_column col c t) w = (x, w') →
  extends P w w'.
Proof.
  intros Hr x w' [= <- <-]. eapply extends_assign; [done|].
  apply index_set_column.
Qed.

(** The aligner makes no call at all and keeps every index. *)
Lemma emits_prepare_input_dataframe P df F md :
  emits P (prepare_input_dataframe df F md).
Proof.
  unfold prepare_input_dataframe. apply emits_bind.
  { apply emits_for_each. intros col w r w'. unfold bind, deref.
    destruct (heap w !! df) as [t|] eqn:Hdf;
      [|intros [= <- <-]; apply extends_refl].
    destruct (negb (has_column col t)).
    - by apply emits_set_column.
    - intros [= <- <-]. apply extends_refl. }
  intros _. apply emits_bind; [apply emits_deref|]. intros t.
  apply emits_bind; [apply emits_lift|]. intros sel.
  apply emits_bind; [apply emits_alloc|]. intros df'.
  apply emits_bind; [|intros _; apply emits_ret].
  apply emits_for_each. intros col w r w'. unfold bind at 1. unfold deref.
  destruct (heap w !! df') as [cur|] eqn:Hdf;
    [|intros [= <- <-]; apply extends_refl].
  unfold bind, lift. destruct (series_at col cur) as [c|e];
    [|intros [= <- <-]; apply extends_refl].
  destruct (isna_any c); [|intros [= <- <-]; apply extends_refl].
  destruct (meta_defaults_of md !! col); [|destruct (is_numeric_dtype c)];
    by apply emits_set_column.
Qed.

Lemma emits_call_method {A} (P : event → Prop) name attr (ev : A → event) arg :
  P (ev arg) → emits P (call_method name attr ev arg).
Proof.
  intros HP. unfold call_method. destruct attr; [by apply emits_external|].
  apply emits_raise.
Qed.

Lemma emits_apply_preprocessor (P : event → Prop) pre df :
  (∀ a, P (EvTransform a)) → emits P (apply_preprocessor pre df).
Proof.
  intros HP. unfold apply_preprocessor.
  apply emits_try_except.
  { apply emits_bind; [apply emits_deref|]. intros t. by apply emits_call_method. }
  intros e. apply emits_try_except; [|intros e2; apply emits_raise].
  apply emits_bind; [apply emits_deref|]. intros t. by apply emits_call_method.
Qed.

Lemma emits_predict_with_model (P : event → Prop) model X :
  P (EvPredictProba (PRaw X)) → P (EvPredict (PRaw X)) →
  emits P (predict_with_model model X).
Proof.
  intros Hpp Hp. unfold predict_with_model.
  destruct (hasattr (attr_predict_proba model)).
  { apply emits_bind; [by apply emits_call_method|]. intros proba.
    apply emits_bind; [by apply emits_call_method|]. intros preds.
    apply emits_ret. }
  destruct (hasattr (attr_predict model)) eqn:Hattr.
  { apply emits_bind; [by apply emits_call_method|]. intros preds.
    apply emits_ret. }
  apply emits_bind.
  - apply emits_try_except; [|intros e; apply emits_ret].
    destruct (isinstance_Booster model); [|apply emits_ret].
    destruct (attr_predict model); [done|].
    apply emits_bind; [apply emits_raise|]. intros proba.
    apply emits_bind.
    { destruct (Nat.eqb (ndim proba) 1); [|apply emits_ret].
      apply emits_bind; [apply emits_lift|]. intros q.
      apply emits_bind; [apply emits_lift|]. intros st. apply emits_ret. }
    intros proba'. apply emits_bind; [apply emits_lift|]. intros preds.
    apply emits_ret.
  - intros [res|]; [apply emits_ret|apply emits_raise].
Qed.

Lemma emits_build_output P idx preds proba :
  emits P (build_output idx preds proba).
Proof.
  unfold build_output. apply emits_bind; [apply emits_lift|]. intros out.
  destruct proba as [p|]; [|apply emits_ret].
  destruct (Nat.eqb (ndim p) 2 && Nat.leb (nth 1 (shape p) 0%nat) 10).
  - apply emits_fold_each. intros s i. apply emits_lift.
  - apply emits_bind; [apply emits_lift|]. intros items. apply emits_lift.
Qed.



(** ** Further properties of the pipeline *)

Lemma extends_log_part P w w' :
  extends P w w' → ∃ evs, log w' = log w ++ evs ∧ Forall P evs.
Proof. by intros [H _]. Qed.






(** X13: a missing model file ends the run at once: the error is the
    loader's [FileNotFoundError] naming the path, and neither the feature
    list, the metadata nor the input file has been read. *)
Theorem run_predictions_missing_model env mp fp pp meta input output k w :
  path_exists env mp = false →
  run_predictions env mp fp pp meta input output k w =
    (Raise (FileNotFoundError ("File not found: " +:+ mp)), w).
Proof.
  intros Hex. unfold run_predictions. apply bind_raise.
  unfold load_pickle_or_joblib. by rewrite Hex.
Qed.

(** X13 where no file exists. *)
Lemma run_predictions_missing_model_witness :
  path_exists Ex2.env_nothing "model.pkl" = false
  ∧ run_predictions Ex2.env_nothing "model.pkl" "features.npy" None None
      "in.csv" (Some "out.csv") 5 Ex.empty_world =
    (Raise (FileNotFoundError ("File not found: " +:+ "model.pkl")),
     Ex.empty_world).
Proof.
  split; [reflexivity|].
  apply (run_predictions_missing_model Ex2.env_nothing "model.pkl"
           "features.npy" None None "in.csv" (Some "out.csv") 5 Ex.empty_world).
  reflexivity.
Defined.

Lemma load_pickle_or_joblib_joblib env path o w :
  path_exists env path = true → joblib_load env path = inr o →
  load_pickle_or_joblib env path w =
    (Ok o, {| heap := heap w; log := log w ++ [EvJoblibLoad path] |}).
Proof.
  intros Hex Hj. unfold load_pickle_or_joblib. rewrite Hex. cbn [negb].
  unfold bind, try_except, external, ret. by rewrite Hj.
Qed.

Lemma external_ok {A} ev (x : string + A) a w :
  x = inr a →
  external ev x w = (Ok a, {| heap := heap w; log := log w ++ [ev] |}).
Proof. by intros ->. Qed.

Lemma not_model_call e :
  (∀ arg, e ≠ EvPredictProba arg) → (∀ arg, e ≠ EvPredict arg) →
  ∀ X, is_model_call e → raw_call X e.
Proof. intros H1 H2 X (arg & [->| ->]); [by destruct (H1 arg)|by destruct (H2 arg)]. Qed.

(** X14: without a preprocessor the model sees the aligned table and nothing
    else.  When the artifacts load and the input has distinct column names
    and the feature list no repeated name, every call of a model operation
    during the run, whatever its outcome, is made on the value matrix of the
    aligned table (the input restricted, reordered and filled as the aligner
    does), never on the raw input. *)
Theorem run_predictions_model_input env mp fp meta input output k w model F md t :
  path_exists env mp = true → joblib_load env mp = inr model →
  np_load env fp = inr F →
  match given_path meta with
  | Some p => json_load env p = inr md
  | None => md = ∅
  end →
  read_csv env input = inr t → NoDup (columns t) → NoDup F →
  ∃ evs,
    log (run_predictions env mp fp None meta input output k w).2 = log w ++ evs
    ∧ Forall (λ e, is_model_call e →
                   raw_call (df_values (aligned (meta_defaults_of (Some md)) F t)) e)
        evs.
Proof.
  intros Hex Hmodel HF Hmd Hcsv Ht HFnd.
  set (X := df_values (aligned (meta_defaults_of (Some md)) F t)).
  set (Q := λ e, is_model_call e → raw_call X e).
  unfold run_predictions.
  rewrite (bind_ok _ _ _ _ _ (load_pickle_or_joblib_joblib env mp model w Hex Hmodel)).
  unfold load_features.
  rewrite (bind_ok _ _ _ _ _ (external_ok (EvNpLoad fp) _ F _ HF)).
  cbn [given_path]. unfold bind at 1. unfold ret at 1.
  set (w2 := {| heap := _; log := _ |}).
  assert (∃ w3 evs3,
            (match given_path meta with
             | Some p => load_metadata env p
             | None => ret ∅
             end) w2 = (Ok md, w3)
            ∧ heap w3 = heap w ∧ log w3 = log w ++ evs3 ∧ Forall Q evs3)
    as (w3 & evs3 & Hmeta & Hh3 & Hl3 & HQ3).
  { destruct (given_path meta) as [p|].
    - eexists _, [EvJoblibLoad mp; EvNpLoad fp; EvJsonLoad p].
      split; [by apply external_ok|]. cbn.
      rewrite <-!app_assoc. split_and!; [done|done|].
      repeat (apply List.Forall_cons; [by (unfold Q; apply not_model_call; intros; discriminate)|]).
      apply List.Forall_nil.
    - subst md. eexists _, [EvJoblibLoad mp; EvNpLoad fp].
      split; [done|]. cbn. rewrite <-app_assoc.
      split_and!; [done|done|].
      repeat (apply List.Forall_cons; [by (unfold Q; apply not_model_call; intros; discriminate)|]).
      apply List.Forall_nil. }
  rewrite (bind_ok _ _ _ _ _ Hmeta).
  rewrite (bind_ok _ _ _ _ _ (external_ok (EvReadCsv input) _ t w3 Hcsv)).
  unfold alloc at 1. unfold bind at 1. cbn [heap log]. cbv zeta.
  set (w5 := {| heap := heap w3 ++ [t]; log := log w3 ++ [EvReadCsv input] |}).
  assert (heap w5 !! length (heap w3) = Some t) as Hdf.
  { cbn. by rewrite lookup_app_r, Nat.sub_diag by lia. }
  rewrite (bind_ok _ _ _ _ _
             (prepare_input_dataframe_run _ F (Some md) t w5 Hdf Ht HFnd)).
  set (w6 := {| heap := _; log := log w5 |}).
  assert (deref (length (heap w5)) w6
          = (Ok (aligned (meta_defaults_of (Some md)) F t), w6)) as Hder.
  { apply deref_ok. cbn [w6 heap].
    rewrite lookup_app_r, length_insert, Nat.sub_diag; [done|].
    by rewrite length_insert. }
  assert ((let! tp := deref (length (heap w5)) in ret (df_values tp)) w6
          = (Ok X, w6)) as HX.
  { by rewrite (bind_ok _ _ _ _ _ Hder). }
  rewrite (bind_ok _ _ _ _ _ HX).
  match goal with
  | |- context [log (bind (predict_with_model model X) ?k w6).2] =>
      assert (emits Q (bind (predict_with_model model X) k)) as Hrest
  end.
  { apply emits_bind.
    - apply emits_predict_with_model; intros _; [by left|by right].
    - intros res. apply emits_bind; [apply emits_build_output|]. intros out.
      apply emits_bind; [apply emits_deref|]. intros cur.
      apply emits_bind; [|intros _; apply emits_ret].
      destruct (given_path output); [|apply emits_ret].
      apply emits_to_csv. unfold Q. apply not_model_call; intros; discriminate. }
  match goal with
  | |- context [log (?m w6).2] =>
      destruct (m w6) as [r w'] eqn:Hrun
  end.
  apply Hrest, extends_log_part in Hrun as (evs' & Hl' & HQ').
  exists (evs3 ++ [EvReadCsv input] ++ evs'). cbn [snd].
  rewrite Hl'. cbn [w6 w5 log]. rewrite Hl3, <-!app_assoc. split; [done|].
  apply Forall_app_2; [done|]. apply Forall_app_2; [|done].
  apply List.Forall_cons; [by (unfold Q; apply not_model_call; intros; discriminate)|]. apply List.Forall_nil.
Qed.

Lemma run_predictions_model_input_witness :
  ∃ evs,
    log (run_predictions Ex.env_ok "model.pkl" "features.npy" None
           (Some "meta.json") "in.csv" (Some "out.csv") 5 Ex.empty_world).2
    = log Ex.empty_world ++ evs
    ∧ Forall (λ e, is_model_call e →
                   raw_call (df_values (aligned (meta_defaults_of (Some Ex.meta_ab))
                                          ["a"; "b"] Ex.input_2rows)) e)
        evs.
Proof.
  apply (run_predictions_model_input Ex.env_ok "model.pkl" "features.npy"
           (Some "meta.json") "in.csv" (Some "out.csv") 5 Ex.empty_world
           Ex.classifier ["a"; "b"] Ex.meta_ab Ex.input_2rows);
    try reflexivity; nodup_by_computation.
Defined.

(** ** The preview table and the printout *)

Lemma length_pick_le {A} (keep : list bool) (l : list A) :
  length (zip keep l ≫= (λ p : bool * A, if p.1 then [p.2] else [])) ≤ length l.
Proof.
  revert l. induction keep as [|b keep IH]; intros [|x l]; cbn; try lia.
  specialize (IH l). rewrite length_app. destruct b; cbn; lia.
Qed.

Lemma nrows_loc_upto k df : nrows (loc_upto k df) ≤ nrows df.
Proof. unfold nrows, loc_upto. cbn [index]. apply length_pick_le. Qed.

Lemma nrows_reset_index df : nrows (reset_index df) = nrows df.
Proof. unfold nrows, reset_index. cbn [index]. apply length_range_index. Qed.

Lemma nrows_concat_axis1 a b :
  nrows (concat_axis1 a b) = Nat.max (nrows a) (nrows b).
Proof.
  unfold concat_axis1. cbv zeta. unfold nrows at 1. cbn [index].
  apply length_range_index.
Qed.

Lemma nrows_df_head n df :
  nrows (df_head n df) =
    if (0 <=? n)%Z then Nat.min (Z.to_nat n) (nrows df)
    else nrows df - Z.to_nat (- n).
Proof.
  unfold df_head. cbv zeta. unfold nrows at 1. cbn [index].
  rewrite length_take. fold (nrows df). destruct (0 <=? n)%Z; lia.
Qed.

(** The parts of the preview of a successful run: the frame read from the
    input file, the result table, and the caller-side frame as the aligner
    left it, which still has the index of the input. *)
Lemma run_predictions_preview_parts env mp fp pp meta input output k w sample w' :
  run_predictions env mp fp pp meta input output k w = (Ok sample, w') →
  ∃ t out cur,
    read_csv env input = inr t
    ∧ out_inv (index t) out
    ∧ index cur = index t
    ∧ sample = concat_axis1 (reset_index (loc_upto (k - 1) cur)) (reset_index out).
Proof.
  unfold run_predictions. intros Hrun.
  apply bind_inv in Hrun as (model & w1 & _ & Hrun).
  apply bind_inv in Hrun as (F & w2 & _ & Hrun).
  apply bind_inv in Hrun as (pre & w3 & _ & Hrun).
  apply bind_inv in Hrun as (md & w4 & _ & Hrun).
  apply bind_inv in Hrun as (t & w5 & Hcsv & Hrun).
  apply bind_inv in Hrun as (df & w6 & Halloc & Hrun).
  apply bind_inv in Hrun as (dfp & w7 & Hprep & Hrun).
  apply bind_inv in Hrun as (X & w8 & HX & Hrun).
  apply bind_inv in Hrun as (res & w9 & Hres & Hrun).
  apply bind_inv in Hrun as (out & w10 & Hout & Hrun).
  apply bind_inv in Hrun as (cur & w11 & Hcur & Hrun).
  apply bind_inv in Hrun as ([] & w12 & _ & Hrun).
  unfold ret in Hrun. injection Hrun as <- <-.
  exists t, out, cur. split_and!.
  - unfold external in Hcsv. destruct (read_csv env input) as [?|t0]; [done|].
    by injection Hcsv as -> _.
  - by eapply build_output_inv.
  - assert (heap w6 !! df = Some t) as Hdf.
    { unfold alloc in Halloc. injection Halloc as <- <-. cbn [heap].
      by rewrite lookup_app_r, Nat.sub_diag by lia. }
    assert (extends (λ _, True) w6 w10) as [_ Hkeep].
    { eapply extends_trans;
        [exact (emits_prepare_input_dataframe _ _ _ _ _ _ _ Hprep)|].
      eapply extends_trans.
      { destruct pre as [p|].
        - exact (emits_apply_preprocessor _ _ _ (λ _, I) _ _ _ HX).
        - revert HX. apply emits_bind; [apply emits_deref|].
          intros tp. apply emits_ret. }
      eapply extends_trans;
        [exact (emits_predict_with_model _ _ _ I I _ _ _ Hres)|].
      exact (emits_build_output _ _ _ _ _ _ _ Hout). }
    destruct (Hkeep df t Hdf) as (t' & Hdf' & Hidx).
    unfold deref in Hcur. rewrite Hdf' in Hcur. by injection Hcur as <- _.
  - done.
Qed.

(** X15: the table a successful run returns has one row per row of a
    non-empty input, numbered from 0, whatever [sample_rows] is: that
    argument only limits which rows carry the input's own columns. *)
Theorem run_predictions_preview_rows env mp fp pp meta input output k w sample w' t :
  run_predictions env mp fp pp meta input output k w = (Ok sample, w') →
  read_csv env input = inr t → index t ≠ [] →
  nrows sample = nrows t ∧ index sample = range_index (nrows t).
Proof.
  intros Hrun Hcsv Hne.
  apply run_predictions_preview_parts in Hrun
    as (t' & out & cur & Hcsv' & (_ & _ & Hout) & Hcur & ->).
  assert (t' = t) as -> by congruence.
  assert (Nat.max (nrows (reset_index (loc_upto (k - 1) cur)))
            (nrows (reset_index out)) = nrows t) as Hmax.
  { rewrite !nrows_reset_index.
    pose proof (nrows_loc_upto (k - 1) cur) as Hle.
    unfold nrows in *. rewrite (Hout Hne). rewrite Hcur in Hle. lia. }
  split.
  - by rewrite nrows_concat_axis1.
  - unfold concat_axis1. cbv zeta. cbn [index]. by rewrite Hmax.
Qed.

(** X15 at the example run, asking for one preview row of a two-row input. *)
Lemma run_predictions_preview_rows_witness :
  ∃ sample w',
    run_predictions Ex.env_ok "model.pkl" "features.npy" None
      (Some "meta.json") "in.csv" (Some "out.csv") 1 Ex.empty_world
    = (Ok sample, w')
    ∧ nrows sample = nrows Ex.input_2rows
    ∧ index sample = range_index (nrows Ex.input_2rows).
Proof.
  eexists _, _. split; [vm_compute; reflexivity|].
  eapply (run_predictions_preview_rows Ex.env_ok "model.pkl" "features.npy"
            None (Some "meta.json") "in.csv" (Some "out.csv") 1 Ex.empty_world);
    [vm_compute; reflexivity|reflexivity|discriminate].
Defined.

(** X16: a successful [main] prints the header line and then one table: the
    first [sample_rows] rows of the preview, all of its rows when the input
    is shorter; for a negative [sample_rows], the preview without its last
    [-sample_rows] rows. *)
Theorem main_prints env args w out w' t :
  main env args w = (Ok out, w') →
  read_csv env (arg_input args) = inr t → index t ≠ [] →
  ∃ table,
    out = [PrintLine "Sample prediction output (first rows):"; PrintTable table]
    ∧ nrows table =
        if (0 <=? arg_sample_rows args)%Z
        then Nat.min (Z.to_nat (arg_sample_rows args)) (nrows t)
        else nrows t - Z.to_nat (- arg_sample_rows args).
Proof.
  intros Hmain Hcsv Hne. unfold main in Hmain.
  apply bind_inv in Hmain as (sample & w1 & Hrun & Hret).
  unfold ret in Hret. injection Hret as <- <-.
  eexists. split; [done|]. rewrite nrows_df_head.
  apply run_predictions_preview_parts in Hrun
    as (t' & o & cur & Hcsv' & (_ & _ & Hout) & Hcur & ->).
  assert (t' = t) as -> by congruence.
  rewrite nrows_concat_axis1, !nrows_reset_index.
  pose proof (nrows_loc_upto (arg_sample_rows args - 1) cur) as Hle.
  unfold nrows in *. rewrite (Hout Hne). rewrite Hcur in Hle.
  by rewrite Nat.max_r by done.
Qed.

(** X16 at the example run with [--sample-rows 1]. *)
Lemma main_prints_witness :
  ∃ out w',
    main Ex.env_ok Ex2.args_one_row Ex.empty_world = (Ok out, w')
    ∧ ∃ table,
        out = [PrintLine "Sample prediction output (first rows):";
               PrintTable table]
        ∧ nrows table = 1.
Proof.
  eexists _, _. split; [vm_compute; reflexivity|].
  eapply (main_prints Ex.env_ok Ex2.args_one_row Ex.empty_world _ _
            Ex.input_2rows);
    [vm_compute; reflexivity|reflexivity|discriminate].
Defined.
